(** * Humanly: the escalation dashboard and the escalation orchestrator

    A shallow embedding of the operator console
    ([Frontend/src/components/EscalationDashboard.tsx], in its revisions
    with and without insight support), of the escalation store, session
    registry and orchestrator the console talks to, and of the chat
    application around it (user id, room names, token service, voice
    connection, text chat).

    JavaScript strings are sequences of UTF-16 code units, React state is
    an explicit record threaded through the handlers, and the requests and
    alerts a handler issues are collected in an effect trace. *)

From Stdlib Require Import NArith Ascii String Sorted Permutation Lia DecimalN.
From stdpp Require Import base option list gmap strings.

Set Default Proof Using "Type".
Local Open Scope N_scope.

(** ** JavaScript strings *)

Module JsString.

(** A string value: its UTF-16 code units. *)
Abbreviation jsstring := (list N).

(** The code units of an ASCII literal. *)
Fixpoint js (s : string) : jsstring :=
  match s with
  | EmptyString => []
  | String a rest => N_of_ascii a :: js rest
  end.

(** [a === b] on two strings. *)
Definition strict_eq (a b : jsstring) : bool := bool_decide (a = b).

(** ECMAScript [WhiteSpace] and [LineTerminator] code points, the ones
    [String.prototype.trim] strips; all of them are single code units. *)
Definition is_white_space (c : N) : bool :=
  (c =? 0x0009) || (c =? 0x000A) || (c =? 0x000B) || (c =? 0x000C) ||
  (c =? 0x000D) || (c =? 0x0020) || (c =? 0x00A0) || (c =? 0x1680) ||
  ((0x2000 <=? c) && (c <=? 0x200A)) ||
  (c =? 0x2028) || (c =? 0x2029) || (c =? 0x202F) || (c =? 0x205F) ||
  (c =? 0x3000) || (c =? 0xFEFF).

Fixpoint trim_start (s : jsstring) : jsstring :=
  match s with
  | [] => []
  | c :: rest => if is_white_space c then trim_start rest else s
  end.

Definition trim_end (s : jsstring) : jsstring := rev (trim_start (rev s)).

(** [s.trim()] *)
Definition trim (s : jsstring) : jsstring := trim_end (trim_start s).

(** Truthiness of a string: only the empty string is falsy. *)
Definition truthy (s : jsstring) : bool :=
  match s with [] => false | _ :: _ => true end.

(** [d || fallback] where [d] is a possibly missing string property. *)
Definition or_else (d : option jsstring) (fallback : jsstring) : jsstring :=
  match d with
  | Some s => if truthy s then s else fallback
  | None => fallback
  end.

(** Code-unit-wise lexicographic comparison, the order of [<] on
    strings.  Timestamps of one ISO-8601 format compare chronologically
    under it. *)
Fixpoint compare (a b : jsstring) : comparison :=
  match a, b with
  | [], [] => Eq
  | [], _ :: _ => Lt
  | _ :: _, [] => Gt
  | x :: a', y :: b' =>
      match N.compare x y with
      | Eq => compare a' b'
      | c => c
      end
  end.

Definition leb (a b : jsstring) : bool :=
  match compare a b with Gt => false | _ => true end.

End JsString.
Import JsString.

(** ** The escalation record, as the console's [interface Escalation] *)

Inductive Urgency := low | medium | high | critical.
Inductive Status := pending | resolved.

Record TranscriptEntry := {
  role : jsstring;
  content : jsstring;
  timestamp : jsstring
}.

Record Escalation := {
  escalation_id : jsstring;
  room_name : jsstring;
  user_id : jsstring;
  reason : jsstring;
  urgency : Urgency;
  decision_type : jsstring;
  context_details : jsstring;
  recent_transcript : list TranscriptEntry;
  status : Status;
  created_at : jsstring;
  human_response : option jsstring;
  responded_at : option jsstring;
  ai_insights : option jsstring;
  insights_generated_at : option jsstring
}.

Global Instance Status_eq_dec : EqDecision Status.
Proof. solve_decision. Defined.

(** [e.status === "pending"] *)
Definition is_pending (e : Escalation) : bool := bool_decide (status e = pending).

(** [e.status === "resolved"] *)
Definition is_resolved (e : Escalation) : bool := bool_decide (status e = resolved).

(** [e.escalation_id === id] *)
Definition has_id (id : jsstring) (e : Escalation) : bool :=
  strict_eq (escalation_id e) id.

(** ** The dashboard component *)

Module Dashboard.

(** The component's [useState] cells. *)
Record State := {
  escalations : list Escalation;
  selectedEscalation : option Escalation;
  responseText : jsstring;
  isSubmitting : bool
}.

(** State on first render. *)
Definition initial : State :=
  {| escalations := []; selectedEscalation := None;
     responseText := []; isSubmitting := false |}.

Definition setEscalations (f : list Escalation → list Escalation) (s : State) : State :=
  {| escalations := f (escalations s); selectedEscalation := selectedEscalation s;
     responseText := responseText s; isSubmitting := isSubmitting s |}.

Definition setSelectedEscalation (o : option Escalation) (s : State) : State :=
  {| escalations := escalations s; selectedEscalation := o;
     responseText := responseText s; isSubmitting := isSubmitting s |}.

Definition setResponseText (t : jsstring) (s : State) : State :=
  {| escalations := escalations s; selectedEscalation := selectedEscalation s;
     responseText := t; isSubmitting := isSubmitting s |}.

Definition setIsSubmitting (b : bool) (s : State) : State :=
  {| escalations := escalations s; selectedEscalation := selectedEscalation s;
     responseText := responseText s; isSubmitting := b |}.

(** *** WebSocket messages

    The parsed payload of [ws.onmessage], by its [type] discriminator,
    with the fields of its type present.  [other_message] stands for any
    other [type] and for a payload [JSON.parse] rejects (the [catch] only
    logs).  An update event that lacks its top-level [escalation_id] is
    a [Console.Payload]. *)
Inductive Message :=
| initial_state (escs : option (list Escalation))
| new_escalation (escalation : Escalation)
| escalation_resolved (id : jsstring) (escalation : Escalation)
| insights_updated (id : jsstring) (escalation : Escalation)
| other_message.

(** The updater passed to [setEscalations] on [new_escalation]:
    [prev.find(...)], then [prev] or [[data.escalation, ...prev]]. *)
Definition add_escalation (esc : Escalation) (prev : list Escalation) : list Escalation :=
  match List.find (has_id (escalation_id esc)) prev with
  | Some _ => prev
  | None => esc :: prev
  end.

(** The updater on [escalation_resolved] and [insights_updated]:
    [prev.map(e => e.escalation_id === id ? data.escalation : e)]. *)
Definition replace_escalation (id : jsstring) (esc : Escalation)
    (prev : list Escalation) : list Escalation :=
  List.map (fun e => if has_id id e then esc else e) prev.

(** [if (selectedEscalation?.escalation_id === id) setSelectedEscalation(esc)],
    where [captured] is the [selectedEscalation] the handler closed over. *)
Definition sync_selected (captured : option Escalation) (id : jsstring)
    (esc : Escalation) (s : State) : State :=
  match captured with
  | Some sel => if has_id id sel then setSelectedEscalation (Some esc) s else s
  | None => s
  end.

(** The component exists in two revisions: the earlier one (also the
    Tailwind-styled copy) knows no insights, the later one adds the
    [ai_insights] field and the [insights_updated] branch. *)
Inductive Revision := WithoutInsights | WithInsights.

(** [ws.onmessage] *)
Definition onmessage (r : Revision) (captured : option Escalation)
    (msg : Message) (s : State) : State :=
  match msg with
  | initial_state escs => setEscalations (fun _ => default [] escs) s
  | new_escalation esc => setEscalations (add_escalation esc) s
  | escalation_resolved id esc =>
      sync_selected captured id esc (setEscalations (replace_escalation id esc) s)
  | insights_updated id esc =>
      match r with
      | WithInsights =>
          sync_selected captured id esc (setEscalations (replace_escalation id esc) s)
      | WithoutInsights => s
      end
  | other_message => s
  end.

(** The handler is installed once, by an effect with no dependencies, so
    it closes over the first render's [selectedEscalation], [null]. *)
Definition receive (r : Revision) (msg : Message) (s : State) : State :=
  onmessage r None msg s.

Definition receive_all (r : Revision) (msgs : list Message) (s : State) : State :=
  fold_left (fun st m => receive r m st) msgs s.

(** [escalations.filter(e => e.status === "pending")], what the list
    view renders. *)
Definition pendingEscalations (s : State) : list Escalation :=
  List.filter is_pending (escalations s).

(** [escalations.filter(e => e.status === "resolved")] *)
Definition resolvedEscalations (s : State) : list Escalation :=
  List.filter is_resolved (escalations s).

(** *** Requests and alerts *)

Inductive Request :=
| GET_pending
| GET_escalation (id : jsstring)
| POST_respond (id : jsstring) (response_text : jsstring).

Inductive Effect :=
| Fetch (r : Request)
| Alert (message : jsstring)
| ConsoleError.

(** A handler: reads and writes the state cells and emits effects. *)
Definition UI (A : Type) : Type := State → A * State * list Effect.

Definition ui_ret {A} (a : A) : UI A := fun s => (a, s, []).
Definition ui_bind {A B} (m : UI A) (k : A → UI B) : UI B :=
  fun s => let '(a, s1, t1) := m s in
           let '(b, s2, t2) := k a s1 in (b, s2, t1 ++ t2).
Definition emit (e : Effect) : UI unit := fun s => (tt, s, [e]).
Definition update (f : State → State) : UI unit := fun s => (tt, f s, []).

Local Notation "m >>> k" := (ui_bind m (fun _ => k))
  (at level 100, k at level 200, right associativity).

(** What a [fetch] of the pending list comes back with: a thrown error,
    or a body whose [escalations] property may be missing. *)
Inductive ListReply :=
| list_threw
| list_body (escs : option (list Escalation)).

(** What the respond [fetch] comes back with: [response.ok], a non-ok
    response whose JSON body may fail to parse and may lack [detail],
    or a thrown network error.  A body that parses to [null] throws at
    [error.detail] and takes the [catch] like one that fails to parse:
    it is [respond_rejected None]. *)
Inductive RespondReply :=
| respond_ok
| respond_rejected (body : option (option jsstring))
| respond_threw.

Definition fetchPendingEscalations (reply : ListReply) : UI unit :=
  emit (Fetch GET_pending) >>>
  match reply with
  | list_body escs => update (setEscalations (fun _ => default [] escs))
  | list_threw => emit ConsoleError
  end.

Definition handleSubmitResponse (reply : RespondReply) (refetch : ListReply) : UI unit :=
  fun s =>
  match selectedEscalation s with
  | None => ui_ret tt s
  | Some sel =>
      if negb (truthy (trim (responseText s))) then ui_ret tt s
      else
        (update (setIsSubmitting true) >>>
         emit (Fetch (POST_respond (escalation_id sel) (trim (responseText s)))) >>>
         match reply with
         | respond_ok =>
             update (setResponseText []) >>>
             update (setSelectedEscalation None) >>>
             fetchPendingEscalations refetch
         | respond_rejected (Some detail) =>
             emit (Alert (js "Error: " ++ or_else detail (js "Failed to submit response")))
         | respond_rejected None | respond_threw =>
             emit ConsoleError >>>
             emit (Alert (js "Failed to submit response. Please try again."))
         end >>>
         update (setIsSubmitting false)) s
  end.

Definition state_after {A} (r : A * State * list Effect) : State := snd (fst r).
Definition effects_of {A} (r : A * State * list Effect) : list Effect := snd r.

End Dashboard.

(** ** The escalation orchestrator

    The server side that the console calls ([api_server.py]) is not among
    the sources; the store, the session registry, the notification hub and
    the orchestrator's public contract are modelled from the specification.
    Every operation below is one atomic section, as the specification asks
    of the store's primitives; concurrent callers are serialised in the
    order their sections run. *)

Module Orchestrator.

Inductive Error := NotFound | DuplicateID | AlreadyResolved | DuplicateWaiter.

Inductive Result (A : Type) :=
| Ok (a : A)
| Err (e : Error).
Arguments Ok {A} a.
Arguments Err {A} e.

Inductive Event :=
| EscalationCreated (record : Escalation)
| EscalationResolved (record : Escalation)
| InsightUpdated (record : Escalation).

Inductive Outcome :=
| Resolved (response : jsstring)
| TimedOut.

(** *** Escalation store *)

(** Modelled from the spec: the store's [put], absent from the sources:
    inserts a new record and fails with [DuplicateID] if the id exists. *)
Definition put (record : Escalation) (st : gmap jsstring Escalation)
    : Result (gmap jsstring Escalation) :=
  match st !! escalation_id record with
  | Some _ => Err DuplicateID
  | None => Ok (<[escalation_id record := record]> st)
  end.

(** Modelled from the spec: the store's [get], absent from the sources:
    returns the record or fails with [NotFound]. *)
Definition get (id : jsstring) (st : gmap jsstring Escalation) : Result Escalation :=
  match st !! id with
  | Some e => Ok e
  | None => Err NotFound
  end.

Definition resolve_record (response resolvedAt : jsstring) (e : Escalation) : Escalation :=
  {| escalation_id := escalation_id e; room_name := room_name e;
     user_id := user_id e; reason := reason e; urgency := urgency e;
     decision_type := decision_type e; context_details := context_details e;
     recent_transcript := recent_transcript e;
     status := resolved; created_at := created_at e;
     human_response := Some response; responded_at := Some resolvedAt;
     ai_insights := ai_insights e;
     insights_generated_at := insights_generated_at e |}.

(** Modelled from the spec: the store's [compareAndTransitionToResolved],
    absent from the sources: checks [status == pending]; if so sets
    [status], [response] and [resolvedAt] and succeeds; otherwise fails
    with [AlreadyResolved] and performs no mutation.  An unknown id is
    [NotFound]. *)
Definition compareAndTransitionToResolved (id response resolvedAt : jsstring)
    (st : gmap jsstring Escalation) : Result Escalation * gmap jsstring Escalation :=
  match st !! id with
  | None => (Err NotFound, st)
  | Some e =>
      match status e with
      | pending =>
          let e' := resolve_record response resolvedAt e in
          (Ok e', <[id := e']> st)
      | resolved => (Err AlreadyResolved, st)
      end
  end.

Definition insight_record (insight : jsstring) (e : Escalation) : Escalation :=
  {| escalation_id := escalation_id e; room_name := room_name e;
     user_id := user_id e; reason := reason e; urgency := urgency e;
     decision_type := decision_type e; context_details := context_details e;
     recent_transcript := recent_transcript e;
     status := status e; created_at := created_at e;
     human_response := human_response e; responded_at := responded_at e;
     ai_insights := Some insight;
     insights_generated_at := insights_generated_at e |}.

(** *** Session registry, notification hub and the whole system *)

(** Modelled from the spec: the state the absent server keeps: the
    store, the registry's waiters and the hub's console subscribers. *)
Record System := {
  store : gmap jsstring Escalation;
  (** per escalation id, the single-use response channel of the waiting
      agent: empty, or holding the delivered response *)
  waiters : gmap jsstring (option jsstring);
  (** per console handle, the events delivered to it, oldest first *)
  consoles : gmap N (list Event)
}.

Definition with_store (st : gmap jsstring Escalation) (σ : System) : System :=
  {| store := st; waiters := waiters σ; consoles := consoles σ |}.
Definition with_waiters (w : gmap jsstring (option jsstring)) (σ : System) : System :=
  {| store := store σ; waiters := w; consoles := consoles σ |}.
Definition with_consoles (c : gmap N (list Event)) (σ : System) : System :=
  {| store := store σ; waiters := waiters σ; consoles := c |}.

(** Modelled from the spec: the registry's [registerWaiter], absent from
    the sources: creates the channel; registering twice for one id is
    [DuplicateWaiter]. *)
Definition registerWaiter (id : jsstring) (σ : System) : Result System :=
  match waiters σ !! id with
  | Some _ => Err DuplicateWaiter
  | None => Ok (with_waiters (<[id := None]> (waiters σ)) σ)
  end.

(** Modelled from the spec: the registry's [deliver], absent from the
    sources: pushes to the registered waiter if one exists, otherwise a
    no-op. *)
Definition deliver (id response : jsstring) (σ : System) : System :=
  match waiters σ !! id with
  | Some _ => with_waiters (<[id := Some response]> (waiters σ)) σ
  | None => σ
  end.

(** Modelled from the spec: the registry's [unregisterWaiter], absent
    from the sources: removes the waiter entry. *)
Definition unregisterWaiter (id : jsstring) (σ : System) : System :=
  with_waiters (delete id (waiters σ)) σ.

(** Modelled from the spec: the hub's broadcast, absent from the sources:
    every subscribed console is handed the event. *)
Definition broadcast (ev : Event) (σ : System) : System :=
  with_consoles ((fun q => q ++ [ev]) <$> consoles σ) σ.

(** Modelled from the spec: the registry's [subscribeConsole] and
    [unsubscribeConsole], absent from the sources: a console connects
    under handle [h] with nothing delivered yet, or disconnects. *)
Definition subscribeConsole (h : N) (σ : System) : System :=
  with_consoles (<[h := []]> (consoles σ)) σ.
Definition unsubscribeConsole (h : N) (σ : System) : System :=
  with_consoles (delete h (consoles σ)) σ.

(** *** Public contract *)

Definition fresh_record (id now : jsstring) (request : Escalation) : Escalation :=
  {| escalation_id := id; room_name := room_name request;
     user_id := user_id request; reason := reason request;
     urgency := urgency request; decision_type := decision_type request;
     context_details := context_details request;
     recent_transcript := recent_transcript request;
     status := pending; created_at := now;
     human_response := None; responded_at := None;
     ai_insights := None; insights_generated_at := None |}.

(** Modelled from the spec: the orchestrator's [create], absent from the
    sources: builds a pending record under the generated id, writes it
    and broadcasts [EscalationCreated]. *)
Definition create (id now : jsstring) (request : Escalation) (σ : System)
    : Result jsstring * System :=
  let record := fresh_record id now request in
  match put record (store σ) with
  | Ok st => (Ok id, broadcast (EscalationCreated record) (with_store st σ))
  | Err e => (Err e, σ)
  end.

(** Modelled from the spec: the orchestrator's [respond], absent from the
    sources: the store's compare-and-transition; on success broadcasts
    [EscalationResolved] and delivers to the registered waiter; on
    failure surfaces the error. *)
Definition respond (id text now : jsstring) (σ : System) : Result unit * System :=
  match compareAndTransitionToResolved id text now (store σ) with
  | (Ok record, st) =>
      (Ok tt, deliver id text (broadcast (EscalationResolved record) (with_store st σ)))
  | (Err e, _) => (Err e, σ)
  end.

(** Modelled from the spec: the orchestrator's [attachInsight], absent
    from the sources: sets or overwrites the insight whatever the status
    and broadcasts [InsightUpdated]. *)
Definition attachInsight (id text : jsstring) (σ : System) : Result unit * System :=
  match store σ !! id with
  | Some e =>
      let e' := insight_record text e in
      (Ok tt, broadcast (InsightUpdated e') (with_store (<[id := e']> (store σ)) σ))
  | None => (Err NotFound, σ)
  end.

(** What other callers do while an agent is suspended: calls of the
    public contract, another agent's await split at its suspension, and
    consoles connecting and disconnecting. *)
Inductive Op :=
| OpCreate (id now : jsstring) (request : Escalation)
| OpRespond (id text now : jsstring)
| OpAttachInsight (id text : jsstring)
| OpAwaitStart (id : jsstring)
| OpAwaitFinish (id : jsstring)
| OpSubscribe (h : N)
| OpUnsubscribe (h : N).

Definition step (op : Op) (σ : System) : System :=
  match op with
  | OpCreate id now request => snd (create id now request σ)
  | OpRespond id text now => snd (respond id text now σ)
  | OpAttachInsight id text => snd (attachInsight id text σ)
  | OpAwaitStart id =>
      match registerWaiter id σ with Ok σ' => σ' | Err _ => σ end
  | OpAwaitFinish id => unregisterWaiter id σ
  | OpSubscribe h => subscribeConsole h σ
  | OpUnsubscribe h => unsubscribeConsole h σ
  end.

Definition run (ops : list Op) (σ : System) : System :=
  fold_left (fun st op => step op st) ops σ.

(** Modelled from the spec: the suspended part of [awaitResponse],
    absent from the sources: the call wakes as soon as a
    response sits in its channel; if the other callers' activity
    [during] the timeout window ends without one, the timeout elapses.
    Either way the waiter is unregistered.  Returns the outcome, the
    system, and the activity that had not happened yet at wake-up. *)
Fixpoint suspended (id : jsstring) (during : list Op) (σ : System)
    : Outcome * System * list Op :=
  match waiters σ !! id with
  | Some (Some response) => (Resolved response, unregisterWaiter id σ, during)
  | _ =>
      match during with
      | [] => (TimedOut, unregisterWaiter id σ, [])
      | op :: rest => suspended id rest (step op σ)
      end
  end.

(** Modelled from the spec: the orchestrator's [awaitResponse], absent
    from the sources: registers a waiter and suspends until a resolution
    arrives ([Resolved]) or the timeout elapses ([TimedOut]). *)
Definition awaitResponse (id : jsstring) (during : list Op) (σ : System)
    : Result Outcome * System * list Op :=
  match registerWaiter id σ with
  | Err e => (Err e, σ, during)
  | Ok σ1 =>
      let '(outcome, σ2, rest) := suspended id during σ1 in (Ok outcome, σ2, rest)
  end.

(** A set of [respond] calls on one id, run in the order [sched] their
    atomic sections execute: each call's result and the system it leaves. *)
Fixpoint respond_all (id : jsstring) (sched : list (jsstring * jsstring))
    (σ : System) : list (Result unit * System) :=
  match sched with
  | [] => []
  | (text, now) :: rest =>
      let r := respond id text now σ in
      r :: respond_all id rest (snd r)
  end.

(** The system a call of the schedule started from. *)
Definition state_before (σ : System) (trace : list (Result unit * System))
    (k : nat) : System :=
  match k with
  | O => σ
  | S j => from_option snd σ (trace !! j)
  end.

(** The system the whole schedule leaves. *)
Definition state_after_all (σ : System) (trace : list (Result unit * System))
    : System :=
  from_option snd σ (last trace).

(** The store holds a pending record under [id]. *)
Definition still_pending (id : jsstring) (σ : System) : Prop :=
  ∃ e, store σ !! id = Some e ∧ status e = pending.

Definition responds_to (id : jsstring) (op : Op) : bool :=
  match op with
  | OpRespond id' _ _ => strict_eq id' id
  | _ => false
  end.

Definition finishes_await (id : jsstring) (op : Op) : bool :=
  match op with
  | OpAwaitFinish id' => strict_eq id' id
  | _ => false
  end.

End Orchestrator.

(** ** Vocabulary of the properties *)

Import Dashboard.

(** The ids of a list of escalations, in list order. *)
Definition ids (l : list Escalation) : list jsstring := List.map escalation_id l.

(** [a] was created no later than [b]. *)
Definition created_no_later (a b : Escalation) : Prop :=
  leb (created_at a) (created_at b) = true.

(** Oldest first: every entry was created no later than the ones after it. *)
Definition oldest_first (l : list Escalation) : Prop :=
  StronglySorted created_no_later l.

(** Newest first: every entry was created no earlier than the ones after it. *)
Definition newest_first (l : list Escalation) : Prop :=
  StronglySorted (fun a b => created_no_later b a) l.

(** A string of white space only (the empty string included). *)
Definition blank (s : jsstring) : Prop :=
  Forall (fun c => is_white_space c = true) s.

(** A request that reads escalations back from the server. *)
Definition is_refetch (e : Effect) : bool :=
  match e with
  | Fetch GET_pending | Fetch (GET_escalation _) => true
  | _ => false
  end.

Definition is_alert (e : Effect) : bool :=
  match e with Alert _ => true | _ => false end.

Definition is_respond_request (e : Effect) : bool :=
  match e with Fetch (POST_respond _ _) => true | _ => false end.

(** The lifecycle event kinds of the notification hub. *)
Inductive Kind := Created | ResolvedEvent | InsightEvent.

Definition kind_of (msg : Message) : option Kind :=
  match msg with
  | new_escalation _ => Some Created
  | escalation_resolved _ _ => Some ResolvedEvent
  | insights_updated _ _ => Some InsightEvent
  | initial_state _ | other_message => None
  end.

(** Revision [r] handles kind [k]: some event of that kind changes the
    escalation list. *)
Definition handles (r : Revision) (k : Kind) : Prop :=
  ∃ msg s, kind_of msg = Some k ∧ escalations (receive r msg s) ≠ escalations s.

(** Revision [r] discards kind [k]: no event of that kind changes anything. *)
Definition discards (r : Revision) (k : Kind) : Prop :=
  ∀ captured msg s, kind_of msg = Some k → onmessage r captured msg s = s.

(** The message the console alerts when the server rejects a response. *)
Definition rejection_alert (body : option (option jsstring)) : jsstring :=
  match body with
  | Some detail => js "Error: " ++ or_else detail (js "Failed to submit response")
  | None => js "Failed to submit response. Please try again."
  end.

(** What follows the respond request in the effect trace, by the reply. *)
Definition after_request (reply : RespondReply) (refetch : ListReply) : list Effect :=
  match reply with
  | respond_ok =>
      Fetch GET_pending ::
      match refetch with list_threw => [ConsoleError] | list_body _ => [] end
  | respond_rejected (Some detail) => [Alert (rejection_alert (Some detail))]
  | respond_rejected None => [ConsoleError; Alert (rejection_alert None)]
  | respond_threw =>
      [ConsoleError; Alert (js "Failed to submit response. Please try again.")]
  end.

(** The state shows the resolution of the selected escalation. *)
Definition shows_resolution (s : State) : Prop :=
  ∃ e, selectedEscalation s = Some e ∧ status e = resolved.

(** Sample records. *)
Definition sample (id : string) (st : Status) (created : string) : Escalation :=
  {| escalation_id := js id; room_name := js "room-1"; user_id := js "user-1";
     reason := js "discount above limit"; urgency := high;
     decision_type := js "pricing"; context_details := [];
     recent_transcript := []; status := st; created_at := js created;
     human_response := None; responded_at := None;
     ai_insights := None; insights_generated_at := None |}.

Definition showing (l : list Escalation) : State :=
  {| escalations := l; selectedEscalation := None;
     responseText := []; isSubmitting := false |}.

Definition answering (l : list Escalation) (sel : Escalation) (text : string) : State :=
  {| escalations := l; selectedEscalation := Some sel;
     responseText := js text; isSubmitting := false |}.

(** ** More of the console: text helpers *)

Module Text.

(** [s.startsWith(pat)] *)
Fixpoint starts_with (pat s : jsstring) : bool :=
  match pat, s with
  | [], _ => true
  | _ :: _, [] => false
  | p :: pat', c :: s' => (p =? c) && starts_with pat' s'
  end.

(** [s.replace(pat, rep)] for a string pattern and a replacement without
    [$]: only the first occurrence of [pat] is replaced. *)
Fixpoint replace_first (pat rep s : jsstring) : jsstring :=
  if starts_with pat s then rep ++ drop (length pat) s
  else match s with
       | [] => []
       | c :: s' => c :: replace_first pat rep s'
       end.

(** [s.includes(pat)] *)
Fixpoint occurs (pat s : jsstring) : bool :=
  starts_with pat s ||
  match s with
  | [] => false
  | _ :: s' => occurs pat s'
  end.

(** [s.split(sep)] for a separator of one code unit; the empty string
    splits into one empty piece. *)
Fixpoint split_on (sep : N) (s : jsstring) : list jsstring :=
  match s with
  | [] => [[]]
  | c :: s' =>
      if c =? sep then [] :: split_on sep s'
      else match split_on sep s' with
           | line :: lines => (c :: line) :: lines
           | [] => [[c]]
           end
  end.

(** [pieces.join(sep)] *)
Fixpoint join_with (sep : N) (pieces : list jsstring) : jsstring :=
  match pieces with
  | [] => []
  | [piece] => piece
  | piece :: rest => piece ++ sep :: join_with sep rest
  end.

(** The number of occurrences of a code unit. *)
Definition occurrences (c : N) (s : jsstring) : nat :=
  length (List.filter (N.eqb c) s).

(** [\d] *)
Definition is_digit (c : N) : bool := (0x30 <=? c) && (c <=? 0x39).

Fixpoint skip_digits (s : jsstring) : jsstring :=
  match s with
  | c :: s' => if is_digit c then skip_digits s' else s
  | [] => []
  end.

(** [s.match(/^\d+\./)]: one digit or more, then a dot. *)
Definition numbered (s : jsstring) : bool :=
  match s with
  | c :: s' => is_digit c && starts_with (js ".") (skip_digits s')
  | [] => false
  end.

Fixpoint uint_units (d : Decimal.uint) : jsstring :=
  match d with
  | Decimal.Nil => []
  | Decimal.D0 d => 0x30 :: uint_units d
  | Decimal.D1 d => 0x31 :: uint_units d
  | Decimal.D2 d => 0x32 :: uint_units d
  | Decimal.D3 d => 0x33 :: uint_units d
  | Decimal.D4 d => 0x34 :: uint_units d
  | Decimal.D5 d => 0x35 :: uint_units d
  | Decimal.D6 d => 0x36 :: uint_units d
  | Decimal.D7 d => 0x37 :: uint_units d
  | Decimal.D8 d => 0x38 :: uint_units d
  | Decimal.D9 d => 0x39 :: uint_units d
  end.

(** A non-negative integer in a template literal: its decimal digits
    (the values here, millisecond timestamps, are far below 1e21). *)
Definition decimal (n : N) : jsstring := uint_units (N.to_uint n).

End Text.
Import Text.

(** ** More of the console: selection, rendering *)

Module Console.

Local Notation "m >>> k" := (ui_bind m (fun _ => k))
  (at level 100, k at level 200, right associativity).

(** What the detail [fetch] comes back with.  The handler never tests
    [response.ok]: whatever JSON body arrives becomes the selection.  So
    the reply is a thrown error (network, or a body that is not JSON), a
    body that is an escalation, a falsy body ([null], [false], [0], the
    empty string), or any other body, one without the fields of an
    escalation, such as the error object of a 404. *)
Inductive DetailReply :=
| detail_threw
| detail_body (fullEscalation : Escalation)
| detail_null
| detail_foreign.

(** What the selection cell holds when the handler is done: what the
    [State] record says, or a body that is no escalation, which the
    record cannot hold (it then says [None]); the panel rendered from
    such a body throws at [decision_type.replace]. *)
Inductive SelectionCell := as_recorded | foreign_body.

(** [escalation.escalation_id === selectedEscalation?.escalation_id] *)
Definition is_selected (escalation : Escalation) (s : State) : bool :=
  match selectedEscalation s with
  | Some sel => strict_eq (escalation_id escalation) (escalation_id sel)
  | None => false
  end.

Definition handleSelectEscalation (escalation : Escalation) (reply : DetailReply)
    : UI SelectionCell :=
  fun s =>
  if is_selected escalation s then
    (update (setSelectedEscalation None) >>>
     update (setResponseText []) >>>
     ui_ret as_recorded) s
  else
    (emit (Fetch (GET_escalation (escalation_id escalation))) >>>
     match reply with
     | detail_body fullEscalation =>
         update (setSelectedEscalation (Some fullEscalation)) >>>
         update (setResponseText []) >>>
         ui_ret as_recorded
     | detail_null =>
         update (setSelectedEscalation None) >>>
         update (setResponseText []) >>>
         ui_ret as_recorded
     | detail_foreign =>
         update (setSelectedEscalation None) >>>
         update (setResponseText []) >>>
         ui_ret foreign_body
     | detail_threw => emit ConsoleError >>> ui_ret as_recorded
     end) s.

(** What is on screen after the handler: [None] when the render throws. *)
Definition rendered_after {A} (render : State → A)
    (out : SelectionCell * State * list Effect) : option A :=
  match fst (fst out) with
  | as_recorded => Some (render (snd (fst out)))
  | foreign_body => None
  end.

(** The submit button's [disabled={!responseText.trim() || isSubmitting}]. *)
Definition submit_disabled (s : State) : bool :=
  negb (truthy (trim (responseText s))) || isSubmitting s.

(** The lower part of the response panel: the form for a pending
    escalation, the resolved badge (with the response when it is a
    non-empty string) otherwise. *)
Inductive ResponseArea :=
| ResponseForm (disabled : bool) (button : jsstring)
| ResolvedBadge (response : option jsstring).

Definition response_area (sel : Escalation) (s : State) : ResponseArea :=
  match status sel with
  | pending =>
      ResponseForm (submit_disabled s)
        (if isSubmitting s then js "Submitting..." else js "Submit Response")
  | resolved =>
      ResolvedBadge
        (match human_response sel with
         | Some r => if truthy r then Some r else None
         | None => None
         end)
  end.

(** What the component renders: the cards of the pending escalations, or
    the panel of the selected one. *)
Inductive View :=
| ListView (cards : list Escalation)
| PanelView (sel : Escalation) (area : ResponseArea).

Definition render (s : State) : View :=
  match selectedEscalation s with
  | None => ListView (pendingEscalations s)
  | Some sel => PanelView sel (response_area sel s)
  end.

(** [resolvedEscalations.slice(0, 5)], the resolved cards of the
    two-column copy. *)
Definition recentResolved (s : State) : list Escalation :=
  take 5 (resolvedEscalations s).

(** [decision_type.replace("_", " ")], the card's type line. *)
Definition decision_label (e : Escalation) : jsstring :=
  replace_first (js "_") (js " ") (decision_type e).

(** [API_BASE_URL.replace("http://", "ws://").replace("https://", "wss://")] *)
Definition wsUrl (base : jsstring) : jsstring :=
  replace_first (js "https://") (js "wss://")
    (replace_first (js "http://") (js "ws://") base).

(** [trimmed.startsWith('-') || trimmed.startsWith('•') || trimmed.match(/^\d+\./)] *)
Definition isBullet (trimmed : jsstring) : bool :=
  starts_with (js "-") trimmed || starts_with [0x2022] trimmed || numbered trimmed.

(** One line of the insight text: [null] for a blank line, otherwise the
    trimmed line and whether it is indented as a bullet. *)
Definition insight_row (line : jsstring) : option (bool * jsstring) :=
  let trimmed := trim line in
  if truthy trimmed then Some (isBullet trimmed, trimmed) else None.

(** [ai_insights.split('\n').map(...)], with the [null]s React skips
    left out. *)
Definition insight_rows (ai_insights : jsstring) : list (bool * jsstring) :=
  omap insight_row (split_on 0x0A ai_insights).

(** The two update events, [insights_updated] and [escalation_resolved]. *)
Definition update_event (insight : bool) (id : jsstring) (esc : Escalation) : Message :=
  if insight then insights_updated id esc else escalation_resolved id esc.

(** A message as the server sends it: an update event carries the record
    of the escalation it names, and a snapshot has no repeated ids. *)
Definition well_formed (msg : Message) : Prop :=
  match msg with
  | initial_state (Some escs) => NoDup (ids escs)
  | escalation_resolved id esc | insights_updated id esc => escalation_id esc = id
  | _ => True
  end.

(** A payload as it may arrive on the socket: one with the fields of its
    [type] ([typed]), or an update event whose top-level [escalation_id]
    is missing, so that [data.escalation_id] is [undefined]. *)
Inductive Payload :=
| typed (msg : Message)
| update_without_id (insight : bool) (escalation : Escalation).

(** [ws.onmessage] on a payload.  Without the top-level id no entry of the
    list matches ([e.escalation_id === undefined] is false for every
    entry), and [selectedEscalation?.escalation_id === undefined] holds
    exactly when the handler closed over no selection. *)
Definition onpayload (r : Revision) (captured : option Escalation)
    (p : Payload) (s : State) : State :=
  match p with
  | typed msg => onmessage r captured msg s
  | update_without_id insight esc =>
      match r, insight with
      | WithoutInsights, true => s
      | _, _ =>
          let s1 := setEscalations (List.map (fun e => e)) s in
          match captured with
          | None => setSelectedEscalation (Some esc) s1
          | Some _ => s1
          end
      end
  end.

(** The handler as installed, closed over the first render's [null]. *)
Definition arrive (r : Revision) (p : Payload) (s : State) : State :=
  onpayload r None p s.

Definition arrive_all (r : Revision) (ps : list Payload) (s : State) : State :=
  fold_left (fun st p => arrive r p st) ps s.

(** The payload is an update event a revision has a branch for. *)
Definition has_branch (r : Revision) (insight : bool) : bool :=
  match r, insight with
  | WithoutInsights, true => false
  | _, _ => true
  end.

End Console.
Import Console.

(** ** The chat application shell *)

Module App.

(** The [useState] initialiser of [userId]: the stored id when there is a
    non-empty one, otherwise a new id built from [Date.now()] and the
    random suffix, which is stored. *)
Definition initUserId (now : N) (suffix : jsstring)
    (localStorage : gmap jsstring jsstring) : jsstring * gmap jsstring jsstring :=
  let generate :=
    let newId := js "user_" ++ decimal now ++ js "_" ++ suffix in
    (newId, <[js "userId" := newId]> localStorage) in
  match localStorage !! js "userId" with
  | Some stored => if truthy stored then (stored, localStorage) else generate
  | None => generate
  end.

(** [livekitService.generateRoomName] *)
Definition generateRoomName (userId : jsstring) (timestamp : N) : jsstring :=
  js "user-" ++ userId ++ js "-" ++ decimal timestamp.

End App.

(** ** The text chat *)

Module TextChat.

Record State := {
  message : jsstring;
  isSending : bool
}.

Inductive Effect :=
| PreventDefault
| Send (text : jsstring)
| ConsoleError.

(** [sendChatMessage] resolves or throws. *)
Inductive SendReply := send_ok | send_threw.

Definition handleSendMessage (reply : SendReply) (s : State) : State * list Effect :=
  if negb (truthy (trim (message s))) || isSending s then (s, [PreventDefault])
  else
    match reply with
    | send_ok =>
        ({| message := []; isSending := false |},
         [PreventDefault; Send (trim (message s))])
    | send_threw =>
        ({| message := message s; isSending := false |},
         [PreventDefault; Send (trim (message s)); ConsoleError])
    end.

(** [handleKeyPress]: Enter without Shift submits. *)
Definition handleKeyPress (key : jsstring) (shiftKey : bool) (reply : SendReply)
    (s : State) : State * list Effect :=
  if strict_eq key (js "Enter") && negb shiftKey then
    let '(s', effects) := handleSendMessage reply s in (s', PreventDefault :: effects)
  else (s, []).

Definition is_send (e : Effect) : bool :=
  match e with Send _ => true | _ => false end.

End TextChat.

(** ** The voice chat: token service and connection *)

Module VoiceChat.

(** [import.meta.env.VITE_LIVEKIT_URL || 'ws://localhost:7880'] *)
Definition LIVEKIT_API_URL (env : option jsstring) : jsstring :=
  or_else env (js "ws://localhost:7880").

Inductive Effect :=
| TokenRequest (room_name participant_name user_id : jsstring)
| ConsoleError.

(** What the token [fetch] comes back with: a thrown error with its
    message; a non-ok response whose JSON body fails to parse ([None]) or
    is a value whose [error] property may be missing; a non-ok response
    whose body is [null], on which reading [errorData.error] throws a
    [TypeError] (with the engine's message); an ok response whose body
    fails to parse (the parser's message); or an ok response with its
    [token]. *)
Inductive TokenReply :=
| fetch_threw (message : jsstring)
| not_ok (body : option (option jsstring))
| not_ok_null (message : jsstring)
| ok_unparsable (message : jsstring)
| ok_body (token : jsstring).

(** The message of the error [getToken] throws, if it throws. *)
Definition thrown (reply : TokenReply) : option jsstring :=
  match reply with
  | fetch_threw message => Some message
  | not_ok body =>
      let errorData :=
        match body with
        | Some error => error
        | None => Some (js "Failed to get LiveKit token")
        end in
      Some (or_else errorData (js "Failed to get LiveKit token from backend"))
  | not_ok_null message => Some message
  | ok_unparsable message => Some message
  | ok_body _ => None
  end.

(** [livekitService.getToken]: the token and the configured address, or
    the message of the error it logs and throws again. *)
Definition getToken (env : option jsstring) (roomName participantName userId : jsstring)
    (reply : TokenReply) : (jsstring + jsstring * jsstring) * list Effect :=
  match reply, thrown reply with
  | ok_body token, _ =>
      (inr (token, LIVEKIT_API_URL env), [TokenRequest roomName participantName userId])
  | _, Some message =>
      (inl message, [TokenRequest roomName participantName userId; ConsoleError])
  | _, None => (inl [], [TokenRequest roomName participantName userId; ConsoleError])
  end.

Record State := {
  token : jsstring;
  serverUrl : jsstring;
  isConnecting : bool;
  error : jsstring;
  hasAttemptedConnect : bool;
  devicesLoaded : bool;
  audioDevices : nat
}.

(** [handleConnect], and the body of the auto-connect effect, which is
    the same code. *)
Definition handleConnect (env : option jsstring) (userId : jsstring) (now : N)
    (reply : TokenReply) (s : State) : State * list Effect :=
  let roomName := App.generateRoomName userId now in
  match getToken env roomName userId userId reply with
  | (inr (accessToken, url), effects) =>
      ({| token := accessToken; serverUrl := url; isConnecting := true;
          error := []; hasAttemptedConnect := true;
          devicesLoaded := devicesLoaded s; audioDevices := audioDevices s |},
       effects)
  | (inl message, effects) =>
      ({| token := token s; serverUrl := serverUrl s; isConnecting := false;
          error := message; hasAttemptedConnect := false;
          devicesLoaded := devicesLoaded s; audioDevices := audioDevices s |},
       effects ++ [ConsoleError])
  end.

(** The condition of the auto-connect effect. *)
Definition shouldAutoConnect (s : State) : bool :=
  devicesLoaded s && (0 <? audioDevices s)%nat && negb (truthy (token s)) &&
  negb (truthy (serverUrl s)) && negb (isConnecting s) && negb (hasAttemptedConnect s).

(** The auto-connect effect, when it runs. *)
Definition autoConnect (env : option jsstring) (userId : jsstring) (now : N)
    (reply : TokenReply) (s : State) : State * list Effect :=
  if shouldAutoConnect s then handleConnect env userId now reply s else (s, []).

Definition handleDisconnect (s : State) : State :=
  {| token := []; serverUrl := []; isConnecting := false;
     error := error s; hasAttemptedConnect := hasAttemptedConnect s;
     devicesLoaded := devicesLoaded s; audioDevices := audioDevices s |}.

(** What the component renders. *)
Inductive View :=
| ConnectionFailed (message : jsstring)
| Connecting
| Room (token serverUrl : jsstring).

Definition render (s : State) : View :=
  if negb (truthy (token s)) || negb (truthy (serverUrl s)) then
    if truthy (error s) then ConnectionFailed (error s) else Connecting
  else Room (token s) (serverUrl s).

End VoiceChat.

(** ** Basic facts about the list updaters *)

Section Updaters.

Implicit Types (e esc : Escalation) (l prev : list Escalation) (id : jsstring).

Lemma has_id_true id e : has_id id e = true ↔ escalation_id e = id.
Proof. unfold has_id, strict_eq. apply bool_decide_eq_true. Qed.

Lemma has_id_false id e : has_id id e = false ↔ escalation_id e ≠ id.
Proof. unfold has_id, strict_eq. apply bool_decide_eq_false. Qed.

Lemma is_pending_true e : is_pending e = true ↔ status e = pending.
Proof. apply bool_decide_eq_true. Qed.

Lemma elem_of_ids id l : id ∈ ids l ↔ ∃ e, e ∈ l ∧ escalation_id e = id.
Proof.
  unfold ids. rewrite list_elem_of_In, in_map_iff.
  split; intros (e & H1 & H2); exists e.
  - by rewrite list_elem_of_In.
  - by rewrite <- list_elem_of_In.
Qed.

Lemma find_has_id_None id l : List.find (has_id id) l = None ↔ id ∉ ids l.
Proof.
  induction l as [|e l IH]; simpl.
  - split; [intros _; apply not_elem_of_nil | done].
  - rewrite not_elem_of_cons. destruct (has_id id e) eqn:E.
    + apply has_id_true in E. split; [done | intros [? _]; congruence].
    + apply has_id_false in E. rewrite IH. split; [by split | by intros [_ ?]].
Qed.

Lemma add_escalation_known esc prev :
  escalation_id esc ∈ ids prev → add_escalation esc prev = prev.
Proof.
  intros Hin. unfold add_escalation.
  destruct (List.find _ prev) eqn:E; [done|].
  apply find_has_id_None in E. contradiction.
Qed.

Lemma add_escalation_fresh esc prev :
  escalation_id esc ∉ ids prev → add_escalation esc prev = esc :: prev.
Proof. intros Hn. unfold add_escalation. apply find_has_id_None in Hn. by rewrite Hn. Qed.

Lemma add_escalation_cases esc prev :
  add_escalation esc prev = prev ∨
  ((escalation_id esc ∉ ids prev) ∧ add_escalation esc prev = esc :: prev).
Proof.
  destruct (decide (escalation_id esc ∈ ids prev)) as [Hin|Hn].
  - left. by apply add_escalation_known.
  - right. split; [done | by apply add_escalation_fresh].
Qed.

Lemma replace_escalation_unknown id esc prev :
  id ∉ ids prev → replace_escalation id esc prev = prev.
Proof.
  induction prev as [|e l IH]; simpl; [done|].
  rewrite not_elem_of_cons. intros [Hne Hl].
  assert (has_id id e = false) as -> by (apply has_id_false; congruence).
  by rewrite IH.
Qed.

Lemma replace_escalation_length id esc prev :
  length (replace_escalation id esc prev) = length prev.
Proof. apply length_map. Qed.

Lemma replace_escalation_lookup id esc prev (i : nat) :
  replace_escalation id esc prev !! i =
  (fun e => if has_id id e then esc else e) <$> prev !! i.
Proof.
  revert i. induction prev as [|e l IH]; intros [|i]; simpl; auto.
Qed.

Lemma filter_ids_NoDup (f : Escalation → bool) l :
  NoDup (ids l) → NoDup (ids (List.filter f l)).
Proof.
  induction l as [|e l IH]; simpl; [done|].
  rewrite NoDup_cons. intros [Hn Hd]. destruct (f e); simpl; [|by apply IH].
  apply NoDup_cons. split; [|by apply IH].
  intros Hin. apply Hn. apply elem_of_ids in Hin as (x & Hx & Hid).
  apply elem_of_ids. exists x. split; [|done].
  apply list_elem_of_In in Hx. apply filter_In in Hx as [Hx _].
  by apply list_elem_of_In.
Qed.

Lemma set_escalations_same (s : State) : setEscalations (fun _ => escalations s) s = s.
Proof. by destruct s. Qed.

End Updaters.

(** ** Handling of [new_escalation] *)

(** C8: handling a [new_escalation] event is idempotent on the escalation
    id.  If the event's id already occurs in the list, the state is left
    as it is; if it does not, exactly the event's record is put in front;
    and a list without repeated ids stays without repeated ids, in the
    state and in the displayed pending list. *)
Theorem new_escalation_idempotent (r : Revision) (captured : option Escalation)
    (esc : Escalation) (s : State) :
  let s' := onmessage r captured (new_escalation esc) s in
  (escalation_id esc ∈ ids (escalations s) → s' = s) ∧
  (escalation_id esc ∉ ids (escalations s) →
     escalations s' = esc :: escalations s) ∧
  (NoDup (ids (escalations s)) →
     NoDup (ids (escalations s')) ∧ NoDup (ids (pendingEscalations s'))).
Proof.
  simpl. split; [|split].
  - intros Hin. unfold setEscalations.
    rewrite (add_escalation_known _ _ Hin). by destruct s.
  - intros Hn. simpl. by apply add_escalation_fresh.
  - intros Hd.
    assert (NoDup (ids (add_escalation esc (escalations s)))) as Hd'.
    { destruct (add_escalation_cases esc (escalations s)) as [->|[Hn ->]]; [done|].
      simpl. apply NoDup_cons. by split. }
    split; [done|]. unfold pendingEscalations. simpl. by apply filter_ids_NoDup.
Qed.

Lemma new_escalation_idempotent_witness :
  let e1 := sample "E1" pending "2025-01-01T10:00:00" in
  let e2 := sample "E2" pending "2025-01-01T10:05:00" in
  receive WithInsights (new_escalation e1) (showing [e1]) = showing [e1] ∧
  escalations (receive WithInsights (new_escalation e2) (showing [e1])) = [e2; e1] ∧
  NoDup (ids (escalations (receive WithInsights (new_escalation e2) (showing [e1])))).
Proof.
  intros e1 e2.
  destruct (new_escalation_idempotent WithInsights None e1 (showing [e1])) as (H1 & _ & _).
  destruct (new_escalation_idempotent WithInsights None e2 (showing [e1])) as (_ & H2 & H3).
  split; [|split].
  - apply H1. vm_compute. apply list_elem_of_here.
  - apply H2. vm_compute. intros H. apply list_elem_of_In in H. simpl in H.
    destruct H as [H|[]]. discriminate H.
  - apply H3. vm_compute. apply NoDup_singleton.
Defined.

(** ** Handling of [escalation_resolved] *)

(** C9: an [escalation_resolved] event whose id matches no escalation of
    the list changes nothing: the list is the same list, nothing is
    inserted, and the handler as installed leaves the whole state as it
    is. *)
Theorem resolved_unknown_id_noop (r : Revision) (captured : option Escalation)
    (id : jsstring) (esc : Escalation) (s : State) :
  id ∉ ids (escalations s) →
  escalations (onmessage r captured (escalation_resolved id esc) s) = escalations s ∧
  receive r (escalation_resolved id esc) s = s.
Proof.
  intros Hn. split.
  - simpl. unfold sync_selected.
    destruct captured as [sel|]; [destruct (has_id id sel)|]; simpl;
      by apply replace_escalation_unknown.
  - unfold receive. simpl. unfold setEscalations.
    rewrite (replace_escalation_unknown _ _ _ Hn). by destruct s.
Qed.

Lemma resolved_unknown_id_noop_witness :
  let e1 := sample "E1" pending "2025-01-01T10:00:00" in
  let e9 := sample "E9" resolved "2025-01-01T09:00:00" in
  (js "E9" ∉ ids (escalations (showing [e1]))) ∧
  escalations (onmessage WithInsights None (escalation_resolved (js "E9") e9) (showing [e1]))
    = [e1] ∧
  receive WithInsights (escalation_resolved (js "E9") e9) (showing [e1]) = showing [e1].
Proof.
  intros e1 e9.
  assert (js "E9" ∉ ids (escalations (showing [e1]))) as Hn.
  { vm_compute. intros H. apply list_elem_of_In in H. simpl in H.
    destruct H as [H|[]]. discriminate H. }
  split; [exact Hn|].
  exact (resolved_unknown_id_noop WithInsights None (js "E9") e9 (showing [e1]) Hn).
Defined.

(** ** The pending projection *)

(** C4: the displayed pending list holds exactly the escalations whose
    status is pending, record by record and id by id; after an
    [escalation_resolved] event carrying the resolved record, the event's
    id is not in the pending list; and a pending record of the list is in
    the pending list for as long as no such event has replaced it. *)
Theorem pending_projection_exact (s : State) :
  (∀ e, e ∈ pendingEscalations s ↔ e ∈ escalations s ∧ status e = pending) ∧
  (∀ id, id ∈ ids (pendingEscalations s) ↔
         ∃ e, e ∈ escalations s ∧ escalation_id e = id ∧ status e = pending) ∧
  (∀ r captured id esc, status esc = resolved →
     id ∉ ids (pendingEscalations (onmessage r captured (escalation_resolved id esc) s))) ∧
  (∀ e, e ∈ escalations s → status e = pending →
     escalation_id e ∈ ids (pendingEscalations s)).
Proof.
  assert (∀ t e, e ∈ pendingEscalations t ↔ e ∈ escalations t ∧ status e = pending) as Hmem.
  { intros t e. unfold pendingEscalations.
    rewrite !list_elem_of_In, filter_In, is_pending_true. done. }
  split; [apply Hmem|]. split; [|split].
  - intros id. rewrite elem_of_ids. split.
    + intros (e & He & Hid). apply Hmem in He as [He Hs]. by exists e.
    + intros (e & He & Hid & Hs). exists e. split; [|done]. apply Hmem. by split.
  - intros r captured id esc Hres Hin.
    apply elem_of_ids in Hin as (x & Hx & Hid).
    apply Hmem in Hx as [Hx Hs].
    assert (x ∈ replace_escalation id esc (escalations s)) as Hx'.
    { revert Hx. simpl. unfold sync_selected.
      destruct captured as [sel|]; [destruct (has_id id sel)|]; done. }
    apply list_elem_of_In, in_map_iff in Hx' as (e & He & _).
    destruct (has_id id e) eqn:E.
    + subst x. congruence.
    + subst x. apply has_id_false in E. contradiction.
  - intros e He Hs. apply elem_of_ids. exists e. split; [|done].
    apply Hmem. by split.
Qed.

Lemma pending_projection_exact_witness :
  let e1 := sample "E1" pending "2025-01-01T10:00:00" in
  let e2 := sample "E2" resolved "2025-01-01T10:05:00" in
  let r1 := sample "E1" resolved "2025-01-01T10:00:00" in
  js "E1" ∈ ids (pendingEscalations (showing [e2; e1])) ∧
  js "E1" ∉ ids (pendingEscalations
                   (receive WithoutInsights (escalation_resolved (js "E1") r1)
                      (showing [e2; e1]))).
Proof.
  intros e1 e2 r1.
  destruct (pending_projection_exact (showing [e2; e1])) as (_ & _ & H3 & H4).
  split.
  - apply (H4 e1); [|reflexivity]. apply list_elem_of_further, list_elem_of_here.
  - apply (H3 WithoutInsights None (js "E1") r1). reflexivity.
Defined.

(** ** Order of the displayed list *)

Section DisplayOrder.

Implicit Types (l recs : list Escalation) (s : State).

Lemma newest_first_filter (f : Escalation → bool) l :
  newest_first l → newest_first (List.filter f l).
Proof.
  unfold newest_first. induction 1 as [|e l Hl IH Hall]; simpl.
  - constructor.
  - destruct (f e); [|done]. constructor; [done|].
    rewrite Forall_forall in Hall |- *. intros x Hx.
    apply Hall. apply list_elem_of_In in Hx. apply filter_In in Hx as [Hx _].
    by apply list_elem_of_In.
Qed.

Lemma add_escalation_elem esc l x :
  x ∈ add_escalation esc l → x = esc ∨ x ∈ l.
Proof.
  destruct (add_escalation_cases esc l) as [->|[_ ->]]; [by right|].
  by rewrite elem_of_cons.
Qed.

Lemma add_escalation_newest_first esc l :
  newest_first l → (∀ y, y ∈ l → created_no_later y esc) →
  newest_first (add_escalation esc l).
Proof.
  intros Hs Hle. destruct (add_escalation_cases esc l) as [->|[_ ->]]; [done|].
  constructor; [done|]. by rewrite Forall_forall.
Qed.

Lemma receive_all_new_escalations r recs s :
  escalations (receive_all r (List.map new_escalation recs) s) =
  fold_left (fun l e => add_escalation e l) recs (escalations s).
Proof.
  revert s. induction recs as [|e recs IH]; intros s; [done|].
  change (escalations (receive_all r (List.map new_escalation recs)
            (receive r (new_escalation e) s)) =
          fold_left (fun l e => add_escalation e l) recs
            (add_escalation e (escalations s))).
  by rewrite IH.
Qed.

Lemma fold_add_newest_first recs l :
  StronglySorted created_no_later recs →
  newest_first l →
  (∀ y z, y ∈ l → z ∈ recs → created_no_later y z) →
  newest_first (fold_left (fun l e => add_escalation e l) recs l).
Proof.
  intros Hsorted. revert l.
  induction Hsorted as [|e recs Hrecs IH Hall]; intros l Hl Hle; simpl; [done|].
  apply IH.
  - apply add_escalation_newest_first; [done|].
    intros y Hy. apply Hle; [done | apply list_elem_of_here].
  - intros y z Hy Hz. apply add_escalation_elem in Hy as [->|Hy].
    + rewrite Forall_forall in Hall. by apply Hall.
    + apply Hle; [done | by apply list_elem_of_further].
Qed.

End DisplayOrder.

Lemma fold_add_fresh (recs l : list Escalation) :
  NoDup (ids recs) →
  (∀ e, e ∈ recs → escalation_id e ∉ ids l) →
  fold_left (fun l e => add_escalation e l) recs l = rev recs ++ l.
Proof.
  revert l. induction recs as [|e recs IH]; intros l Hd Hfresh; [done|].
  simpl in Hd. apply NoDup_cons in Hd as [Hne Hd]. simpl.
  rewrite add_escalation_fresh by (apply Hfresh, list_elem_of_here).
  rewrite IH; [by rewrite <- app_assoc | done |].
  intros x Hx. simpl. apply not_elem_of_cons. split.
  - intros Heq. apply Hne. rewrite <- Heq. apply elem_of_ids. by exists x.
  - apply Hfresh. by apply list_elem_of_further.
Qed.

(** C2 (as amended): the console lists the most recently announced
    escalation first.  Announced under pairwise different ids the list
    does not hold yet, the records are put in front of the list one by
    one: the list becomes the announced records in reverse order of
    arrival, followed by the list as it was, and the displayed pending
    list is the pending ones among them in that order.  So when the
    events arrive in creation order, on a list that is newest first and
    holds nothing created later than what arrives, the list and the
    displayed pending list have later-created escalations before
    earlier-created ones. *)
Theorem new_escalations_newest_first (r : Revision) (recs : list Escalation) (s : State) :
  let s' := receive_all r (List.map new_escalation recs) s in
  (NoDup (ids recs) →
   (∀ e, e ∈ recs → escalation_id e ∉ ids (escalations s)) →
     escalations s' = rev recs ++ escalations s ∧
     pendingEscalations s' =
       List.filter is_pending (rev recs) ++ pendingEscalations s) ∧
  (StronglySorted created_no_later recs →
   newest_first (escalations s) →
   (∀ y z, y ∈ escalations s → z ∈ recs → created_no_later y z) →
     newest_first (escalations s') ∧ newest_first (pendingEscalations s')).
Proof.
  intros s'. split.
  - intros Hd Hfresh.
    assert (escalations s' = rev recs ++ escalations s) as H.
    { subst s'. rewrite receive_all_new_escalations. by apply fold_add_fresh. }
    split; [done|]. unfold pendingEscalations. rewrite H. apply List.filter_app.
  - intros Hsorted Hs Hle.
    assert (newest_first (escalations s')) as H.
    { subst s'. rewrite receive_all_new_escalations. by apply fold_add_newest_first. }
    split; [done|]. by apply newest_first_filter.
Qed.

Lemma new_escalations_newest_first_witness :
  let e1 := sample "E1" pending "2025-01-01T10:00:00" in
  let e2 := sample "E2" pending "2025-01-01T10:05:00" in
  let s' := receive_all WithInsights [new_escalation e1; new_escalation e2] initial in
  NoDup (ids [e1; e2]) ∧ StronglySorted created_no_later [e1; e2] ∧
  escalations s' = [e2; e1] ∧ pendingEscalations s' = [e2; e1] ∧
  newest_first (escalations s') ∧ newest_first (pendingEscalations s').
Proof.
  intros e1 e2 s'.
  assert (NoDup (ids [e1; e2])) as Hd.
  { apply NoDup_cons. split; [|apply NoDup_singleton].
    intros H. apply list_elem_of_In in H. simpl in H.
    destruct H as [H|[]]. discriminate H. }
  assert (StronglySorted created_no_later [e1; e2]) as Hsorted.
  { repeat constructor. }
  split; [exact Hd|]. split; [exact Hsorted|].
  destruct (new_escalations_newest_first WithInsights [e1; e2] initial) as [Hfront Hord].
  destruct Hfront as [H1 H2]; [exact Hd| |].
  { intros e _. simpl. apply not_elem_of_nil. }
  destruct Hord as [H3 H4]; [exact Hsorted | constructor | |].
  { intros y z Hy. simpl in Hy. by apply not_elem_of_nil in Hy. }
  split; [exact H1|]. split; [exact H2|]. split; [exact H3 | exact H4].
Defined.

(** C2 (counterexample): two escalations created five minutes apart and
    announced in that order are displayed with the later-created one
    first, in either revision, so the displayed list is not oldest first. *)
Lemma pending_list_not_oldest_first :
  let e1 := sample "E1" pending "2025-01-01T10:00:00" in
  let e2 := sample "E2" pending "2025-01-01T10:05:00" in
  pendingEscalations
    (receive_all WithInsights [new_escalation e1; new_escalation e2] initial) = [e2; e1] ∧
  ¬ oldest_first
      (pendingEscalations
         (receive_all WithInsights [new_escalation e1; new_escalation e2] initial)) ∧
  ¬ oldest_first
      (pendingEscalations
         (receive_all WithoutInsights [new_escalation e1; new_escalation e2] initial)).
Proof.
  intros e1 e2.
  assert (¬ oldest_first [e2; e1]) as Hno.
  { intros H. apply StronglySorted_inv in H as [_ H].
    apply Forall_inv in H. vm_compute in H. discriminate H. }
  split; [reflexivity|]. split; exact Hno.
Qed.

(** ** Which lifecycle events the console handles *)

(** C5 (as amended): the revision with insight support handles all three
    lifecycle event kinds; the revisions without it handle
    [new_escalation] and [escalation_resolved] and discard
    [insights_updated].  Where an event is handled, the new list is the
    updater's result on the old one. *)
Theorem lifecycle_events_handled :
  (∀ k, handles WithInsights k) ∧
  handles WithoutInsights Created ∧
  handles WithoutInsights ResolvedEvent ∧
  discards WithoutInsights InsightEvent ∧
  (∀ r captured esc s,
     escalations (onmessage r captured (new_escalation esc) s)
     = add_escalation esc (escalations s)) ∧
  (∀ r captured id esc s,
     escalations (onmessage r captured (escalation_resolved id esc) s)
     = replace_escalation id esc (escalations s)) ∧
  (∀ captured id esc s,
     escalations (onmessage WithInsights captured (insights_updated id esc) s)
     = replace_escalation id esc (escalations s)).
Proof.
  pose (e1 := sample "E1" pending "2025-01-01T10:00:00").
  pose (r1 := sample "E1" resolved "2025-01-01T10:00:00").
  assert (∀ r, handles r Created) as Hc.
  { intros r. exists (new_escalation e1), initial. split; [done|]. discriminate. }
  assert (∀ r, handles r ResolvedEvent) as Hr.
  { intros r. exists (escalation_resolved (js "E1") r1), (showing [e1]).
    split; [done|]. discriminate. }
  assert (∀ captured id esc s,
     escalations (sync_selected captured id esc
                    (setEscalations (replace_escalation id esc) s))
     = replace_escalation id esc (escalations s)) as Hsync.
  { intros captured id esc s. unfold sync_selected.
    destruct captured as [sel|]; [destruct (has_id id sel)|]; done. }
  repeat split.
  - intros [| |]; [apply Hc | apply Hr |].
    exists (insights_updated (js "E1") r1), (showing [e1]). split; [done|]. discriminate.
  - apply Hc.
  - apply Hr.
  - intros captured [ | | | |] s Hk; try discriminate Hk. done.
  - intros r captured id esc s. apply Hsync.
  - intros captured id esc s. apply Hsync.
Qed.

(** C5 (counterexample): in the revisions without insight support no
    [insights_updated] event ever changes the escalation list. *)
Lemma insight_event_not_handled_without_insights :
  ¬ handles WithoutInsights InsightEvent.
Proof.
  intros (msg & s & Hk & Hne).
  destruct msg; try discriminate Hk. by apply Hne.
Qed.

(** ** Frame of an insight update *)

(** C6 (as amended): an [insights_updated] event touches only its target.
    For every state and every such event the list keeps its length,
    every escalation whose id differs from the event's id is unchanged,
    and every escalation with the event's id is replaced by the event's
    record; so an entry's status changes only where the event's record
    carries another status than the entry it replaces, and if it carries
    the same one, no status changes at all. *)
Theorem insight_update_frame (captured : option Escalation) (id : jsstring)
    (esc : Escalation) (s : State) :
  let s' := onmessage WithInsights captured (insights_updated id esc) s in
  length (escalations s') = length (escalations s) ∧
  (∀ (i : nat) x, escalations s !! i = Some x →
     ∃ x', escalations s' !! i = Some x' ∧
           (escalation_id x ≠ id → x' = x) ∧ (escalation_id x = id → x' = esc) ∧
           (status x' ≠ status x → escalation_id x = id ∧ status esc ≠ status x)) ∧
  ((∀ x, x ∈ escalations s → escalation_id x = id → status x = status esc) →
   ∀ (i : nat) x x', escalations s !! i = Some x → escalations s' !! i = Some x' →
                     status x' = status x).
Proof.
  intros s'.
  assert (escalations s' = replace_escalation id esc (escalations s)) as ->.
  { subst s'. simpl. unfold sync_selected.
    destruct captured as [sel|]; [destruct (has_id id sel)|]; done. }
  split; [apply replace_escalation_length|]. split.
  - intros i x Hx. rewrite replace_escalation_lookup, Hx. simpl.
    destruct (has_id id x) eqn:E.
    + apply has_id_true in E. exists esc. repeat split; try done.
    + apply has_id_false in E. exists x. repeat split; done.
  - intros Hst i x x' Hx. rewrite replace_escalation_lookup, Hx. simpl.
    intros [= <-]. destruct (has_id id x) eqn:E; [|done].
    apply has_id_true in E. symmetry. apply Hst; [|done].
    by apply list_elem_of_lookup_2 in Hx.
Qed.

Lemma insight_update_frame_witness :
  let e1 := sample "E1" pending "2025-01-01T10:00:00" in
  let e2 := sample "E2" resolved "2025-01-01T10:05:00" in
  let i1 := Orchestrator.insight_record (js "- offer is within policy") e1 in
  let s' := onmessage WithInsights None (insights_updated (js "E1") i1) (showing [e2; e1]) in
  escalations s' = [e2; i1] ∧
  length (escalations s') = 2%nat ∧
  ∀ (i : nat) x x', [e2; e1] !! i = Some x → escalations s' !! i = Some x' →
                    status x' = status x.
Proof.
  intros e1 e2 i1. split; [reflexivity|].
  destruct (insight_update_frame None (js "E1") i1 (showing [e2; e1])) as (Hlen & _ & Hst).
  split; [exact Hlen|]. apply Hst.
  intros x Hx Hid. simpl in Hx.
  apply elem_of_cons in Hx as [->|Hx]; [discriminate Hid|].
  apply elem_of_cons in Hx as [->|Hx]; [reflexivity|].
  by apply not_elem_of_nil in Hx.
Defined.

(** C6 (counterexample): a console that still shows an escalation as
    pending receives an [insights_updated] event whose record is already
    resolved; the entry's status changes with the update. *)
Lemma insight_update_changes_status :
  let e1 := sample "E1" pending "2025-01-01T10:00:00" in
  let r1 := Orchestrator.insight_record (js "- offer is within policy")
              (sample "E1" resolved "2025-01-01T10:00:00") in
  let s' := receive WithInsights (insights_updated (js "E1") r1) (showing [e1]) in
  ∃ x x', escalations (showing [e1]) !! 0%nat = Some x ∧
          escalations s' !! 0%nat = Some x' ∧
          status x = pending ∧ status x' = resolved ∧ status x' ≠ status x.
Proof.
  intros e1 r1 s'. exists e1, r1. repeat split. discriminate.
Qed.

(** ** [trim] *)

Section Trim.

Implicit Types (s t : jsstring) (c : N).

Lemma last_rev_head (l : list N) : last (rev l) = head l.
Proof. destruct l as [|x l]; [done|]. simpl. apply last_snoc. Qed.

Lemma trim_start_split s :
  ∃ pre, s = pre ++ trim_start s ∧ blank pre.
Proof.
  induction s as [|c s (pre & Hs & Hpre)]; simpl.
  - exists []. split; [done | constructor].
  - destruct (is_white_space c) eqn:E.
    + exists (c :: pre). split; [simpl; congruence | by constructor].
    + exists []. split; [done | constructor].
Qed.

Lemma trim_start_head s c :
  head (trim_start s) = Some c → is_white_space c = false.
Proof.
  induction s as [|d s IH]; simpl; [done|].
  destruct (is_white_space d) eqn:E; [done|]. simpl. congruence.
Qed.

Lemma trim_start_blank s : trim_start s = [] ↔ blank s.
Proof.
  unfold blank. induction s as [|c s IH]; simpl.
  - split; [constructor | done].
  - rewrite Forall_cons. destruct (is_white_space c) eqn:E.
    + rewrite IH. split; [by split | by intros [_ ?]].
    + split; [done | intros [? _]; congruence].
Qed.

Lemma trim_start_snoc s c :
  is_white_space c = false → trim_start (s ++ [c]) = trim_start s ++ [c].
Proof.
  intros Hc. induction s as [|d s IH]; simpl.
  - by rewrite Hc.
  - by destruct (is_white_space d).
Qed.

Lemma trim_end_split t :
  ∃ post, t = trim_end t ++ post ∧ blank post.
Proof.
  unfold trim_end. destruct (trim_start_split (rev t)) as (pre & Hs & Hpre).
  exists (rev pre). split.
  - rewrite <- rev_app_distr, <- Hs. by rewrite rev_involutive.
  - unfold blank in *. by apply Forall_rev.
Qed.

Lemma trim_end_cons c t :
  is_white_space c = false → trim_end (c :: t) = c :: trim_end t.
Proof.
  intros Hc. unfold trim_end. simpl.
  rewrite (trim_start_snoc _ _ Hc), rev_app_distr. done.
Qed.

Lemma trim_end_last t c :
  last (trim_end t) = Some c → is_white_space c = false.
Proof.
  unfold trim_end. rewrite last_rev_head. apply trim_start_head.
Qed.

Lemma trim_end_blank t : trim_end t = [] ↔ blank t.
Proof.
  unfold trim_end. split.
  - intros H. apply (f_equal (@rev N)) in H. rewrite rev_involutive in H. simpl in H.
    apply trim_start_blank in H. unfold blank in *.
    rewrite <- (rev_involutive t). by apply Forall_rev.
  - intros H. assert (trim_start (rev t) = []) as ->; [|done].
    apply trim_start_blank. unfold blank in *. by apply Forall_rev.
Qed.

Lemma trim_split s :
  ∃ pre post, s = pre ++ trim s ++ post ∧ blank pre ∧ blank post.
Proof.
  unfold trim.
  destruct (trim_start_split s) as (pre & Hs & Hpre).
  destruct (trim_end_split (trim_start s)) as (post & Ht & Hpost).
  exists pre, post. split; [|done]. by rewrite <- Ht.
Qed.

Lemma trim_blank s : trim s = [] ↔ blank s.
Proof.
  unfold trim. rewrite trim_end_blank. split.
  - intros H. destruct (trim_start_split s) as (pre & Hs & Hpre).
    rewrite Hs. unfold blank in *. by apply Forall_app.
  - intros H. apply trim_start_blank in H. rewrite H. constructor.
Qed.

Lemma trim_head s c : head (trim s) = Some c → is_white_space c = false.
Proof.
  unfold trim. destruct (trim_start s) as [|d t] eqn:E.
  - done.
  - assert (is_white_space d = false) as Hd.
    { apply (trim_start_head s). by rewrite E. }
    rewrite (trim_end_cons _ _ Hd). simpl. congruence.
Qed.

Lemma trim_last s c : last (trim s) = Some c → is_white_space c = false.
Proof. unfold trim. apply trim_end_last. Qed.

Lemma truthy_false s : truthy s = false ↔ s = [].
Proof. by destruct s. Qed.

End Trim.

(** ** Submitting a response *)

Section Submit.

Implicit Types (s : State) (sel : Escalation) (reply : RespondReply)
  (refetch : ListReply).

Lemma submit_idle reply refetch s :
  selectedEscalation s = None ∨ blank (responseText s) →
  handleSubmitResponse reply refetch s = (tt, s, []).
Proof.
  unfold handleSubmitResponse. intros [Hsel|Hblank].
  - by rewrite Hsel.
  - apply trim_blank in Hblank. rewrite Hblank. simpl.
    by destruct (selectedEscalation s).
Qed.

Lemma submit_effects reply refetch s sel :
  selectedEscalation s = Some sel →
  truthy (trim (responseText s)) = true →
  effects_of (handleSubmitResponse reply refetch s) =
  Fetch (POST_respond (escalation_id sel) (trim (responseText s)))
    :: after_request reply refetch.
Proof.
  intros Hsel Ht. unfold handleSubmitResponse. rewrite Hsel, Ht. simpl.
  destruct reply as [|[detail|]|]; try done.
  by destruct refetch.
Qed.

Lemma submit_rejected_state body refetch s sel :
  selectedEscalation s = Some sel →
  truthy (trim (responseText s)) = true →
  state_after (handleSubmitResponse (respond_rejected body) refetch s) =
  setIsSubmitting false s.
Proof.
  intros Hsel Ht. unfold handleSubmitResponse. rewrite Hsel, Ht. simpl.
  by destruct body.
Qed.

Lemma after_request_no_respond reply refetch :
  existsb is_respond_request (after_request reply refetch) = false.
Proof. destruct reply as [|[detail|]|]; try done. by destruct refetch. Qed.

End Submit.

(** C10: the console never submits a blank response.  With no escalation
    selected, or with a typed text that is empty or white space only,
    [handleSubmitResponse] issues nothing and leaves the state as it is.
    Otherwise it issues the respond request first, for the selected
    escalation; and whenever a respond request is issued, its
    [response_text] is the typed text without its leading and trailing
    white space, and is not empty. *)
Theorem never_submits_blank (reply : RespondReply) (refetch : ListReply) (s : State) :
  let out := handleSubmitResponse reply refetch s in
  (selectedEscalation s = None ∨ blank (responseText s) →
     effects_of out = [] ∧ state_after out = s) ∧
  (∀ sel, selectedEscalation s = Some sel → ¬ blank (responseText s) →
     head (effects_of out) =
     Some (Fetch (POST_respond (escalation_id sel) (trim (responseText s))))) ∧
  (∀ id body, Fetch (POST_respond id body) ∈ effects_of out →
     body = trim (responseText s) ∧ body ≠ [] ∧
     (∃ sel, selectedEscalation s = Some sel ∧ id = escalation_id sel) ∧
     (∃ pre post, responseText s = pre ++ body ++ post ∧ blank pre ∧ blank post) ∧
     (∀ c, head body = Some c ∨ last body = Some c → is_white_space c = false)).
Proof.
  intros out. subst out.
  assert (∀ sel, selectedEscalation s = Some sel → ¬ blank (responseText s) →
            truthy (trim (responseText s)) = true) as Htruthy.
  { intros sel _ Hnb. destruct (truthy _) eqn:E; [done|].
    apply truthy_false, trim_blank in E. contradiction. }
  split; [|split].
  - intros H. by rewrite (submit_idle _ _ _ H).
  - intros sel Hsel Hnb.
    by rewrite (submit_effects _ _ _ _ Hsel (Htruthy _ Hsel Hnb)).
  - intros id body Hin.
    destruct (selectedEscalation s) as [sel|] eqn:Hsel; cycle 1.
    { rewrite (submit_idle reply refetch s) in Hin by (by left).
      by apply not_elem_of_nil in Hin. }
    destruct (truthy (trim (responseText s))) eqn:Ht; cycle 1.
    { apply truthy_false, trim_blank in Ht.
      rewrite (submit_idle reply refetch s) in Hin by (by right).
      by apply not_elem_of_nil in Hin. }
    rewrite (submit_effects _ _ _ _ Hsel Ht) in Hin.
    apply elem_of_cons in Hin as [Heq|Hin]; cycle 1.
    { exfalso. pose proof (after_request_no_respond reply refetch) as Hno.
      apply list_elem_of_In in Hin.
      assert (existsb is_respond_request (after_request reply refetch) = true) as Hyes.
      { apply existsb_exists. by exists (Fetch (POST_respond id body)). }
      congruence. }
    injection Heq as -> ->.
    split; [done|]. split; [by destruct (trim (responseText s))|].
    split; [by exists sel|]. split; [apply trim_split|].
    intros c [Hc|Hc]; [by apply (trim_head (responseText s)) | by apply (trim_last (responseText s))].
Qed.

Lemma never_submits_blank_witness :
  let e1 := sample "E1" pending "2025-01-01T10:00:00" in
  effects_of (handleSubmitResponse respond_ok list_threw (answering [e1] e1 "  ")) = [] ∧
  head (effects_of (handleSubmitResponse respond_ok list_threw
                      (answering [e1] e1 " approve 10% ")))
  = Some (Fetch (POST_respond (js "E1") (js "approve 10%"))).
Proof.
  intros e1.
  destruct (never_submits_blank respond_ok list_threw (answering [e1] e1 "  "))
    as (H1 & _ & _).
  destruct (never_submits_blank respond_ok list_threw (answering [e1] e1 " approve 10% "))
    as (_ & H2 & _).
  split.
  - apply H1. right. vm_compute. repeat constructor.
  - apply (H2 e1); [reflexivity|].
    intros Hb. apply Forall_inv_tail, Forall_inv in Hb. vm_compute in Hb. discriminate Hb.
Defined.

(** C3 (as amended): when the server rejects the respond submission, the
    console alerts the operator, with the server's error detail when the
    response body has one, and does nothing else: it issues no re-fetch,
    and the escalation list, the selection and the typed text stay as they
    were; only [isSubmitting] is cleared. *)
Theorem rejection_alerts_only (body : option (option jsstring)) (refetch : ListReply)
    (s : State) (sel : Escalation) :
  selectedEscalation s = Some sel →
  ¬ blank (responseText s) →
  let out := handleSubmitResponse (respond_rejected body) refetch s in
  List.filter is_refetch (effects_of out) = [] ∧
  List.filter is_alert (effects_of out) = [Alert (rejection_alert body)] ∧
  (∀ d, body = Some (Some d) → d ≠ [] → rejection_alert body = js "Error: " ++ d) ∧
  state_after out = setIsSubmitting false s.
Proof.
  intros Hsel Hnb out.
  assert (truthy (trim (responseText s)) = true) as Ht.
  { destruct (truthy _) eqn:E; [done|].
    apply truthy_false, trim_blank in E. contradiction. }
  subst out. rewrite (submit_effects _ _ _ _ Hsel Ht), (submit_rejected_state _ _ _ _ Hsel Ht).
  split; [by destruct body | split; [by destruct body | split; [|done]]].
  intros d -> Hd. simpl. by destruct d.
Qed.

Lemma rejection_alerts_only_witness :
  let e1 := sample "E1" pending "2025-01-01T10:00:00" in
  let s := answering [e1] e1 "approve" in
  let out := handleSubmitResponse
               (respond_rejected (Some (Some (js "Escalation already resolved"))))
               (list_body (Some [])) s in
  effects_of out =
    [Fetch (POST_respond (js "E1") (js "approve"));
     Alert (js "Error: Escalation already resolved")] ∧
  List.filter is_refetch (effects_of out) = [] ∧
  state_after out = setIsSubmitting false s.
Proof.
  intros e1 s out. split; [reflexivity|].
  assert (¬ blank (responseText s)) as Hnb.
  { intros Hb. apply Forall_inv in Hb. vm_compute in Hb. discriminate Hb. }
  destruct (rejection_alerts_only (Some (Some (js "Escalation already resolved")))
              (list_body (Some [])) s e1 eq_refl Hnb) as (H1 & _ & _ & H4).
  split; [exact H1 | exact H4].
Defined.

(** C3 (counterexample): an operator answers a pending escalation that a
    colleague has just resolved; the server rejects the submission.  The
    console issues the respond request and an alert, no request that
    reads the escalation back, and goes on showing the stale pending
    record, not the existing resolution. *)
Lemma rejection_is_not_refetched :
  let e1 := sample "E1" pending "2025-01-01T10:00:00" in
  let r1 := Orchestrator.resolve_record (js "deny") (js "2025-01-01T10:07:00") e1 in
  let out := handleSubmitResponse
               (respond_rejected (Some (Some (js "Escalation already resolved"))))
               (list_body (Some [r1])) (answering [e1] e1 "approve") in
  ¬ (existsb is_refetch (effects_of out) = true) ∧
  ¬ shows_resolution (state_after out).
Proof.
  intros e1 r1 out. split.
  - vm_compute. discriminate.
  - intros (e & He & Hres). vm_compute in He. injection He as <-. discriminate Hres.
Qed.

(** ** The orchestrator: exclusive resolution *)

Module OrchestratorFacts.
Import Orchestrator.

Implicit Types (σ : System) (id text now : jsstring) (e : Escalation) (op : Op).

Lemma store_broadcast ev σ : store (broadcast ev σ) = store σ.
Proof. done. Qed.

Lemma waiters_broadcast ev σ : waiters (broadcast ev σ) = waiters σ.
Proof. done. Qed.

Lemma store_deliver id text σ : store (deliver id text σ) = store σ.
Proof. unfold deliver. by destruct (waiters σ !! id). Qed.

Lemma waiters_deliver_ne id id' text σ :
  id' ≠ id → waiters (deliver id' text σ) !! id = waiters σ !! id.
Proof.
  intros Hne. unfold deliver. destruct (waiters σ !! id'); [|done].
  simpl. by rewrite lookup_insert_ne.
Qed.

Lemma waiters_deliver_registered id text σ :
  is_Some (waiters σ !! id) → waiters (deliver id text σ) !! id = Some (Some text).
Proof.
  intros [w Hw]. unfold deliver. rewrite Hw. simpl. by rewrite lookup_insert_eq.
Qed.

Lemma respond_pending id text now σ e :
  store σ !! id = Some e → status e = pending →
  respond id text now σ =
  (Ok tt,
   deliver id text
     (broadcast (EscalationResolved (resolve_record text now e))
        (with_store (<[id := resolve_record text now e]> (store σ)) σ))).
Proof.
  intros He Hs. unfold respond, compareAndTransitionToResolved. by rewrite He, Hs.
Qed.

Lemma respond_resolved id text now σ e :
  store σ !! id = Some e → status e = resolved →
  respond id text now σ = (Err AlreadyResolved, σ).
Proof.
  intros He Hs. unfold respond, compareAndTransitionToResolved. by rewrite He, Hs.
Qed.

Lemma respond_failure_no_mutation id text now σ :
  fst (respond id text now σ) ≠ Ok tt → snd (respond id text now σ) = σ.
Proof.
  unfold respond.
  destruct (compareAndTransitionToResolved id text now (store σ)) as [[record|err] st];
    simpl; [|done].
  intros H. by destruct H.
Qed.

Lemma respond_all_resolved id sched σ e :
  store σ !! id = Some e → status e = resolved →
  respond_all id sched σ = (fun _ => (Err AlreadyResolved, σ)) <$> sched.
Proof.
  intros He Hs. induction sched as [|[text now] rest IH]; simpl; [done|].
  rewrite (respond_resolved _ _ _ _ _ He Hs). simpl. by rewrite IH.
Qed.

Lemma respond_all_length id sched σ :
  length (respond_all id sched σ) = length sched.
Proof.
  revert σ. induction sched as [|[text now] rest IH]; intros σ; simpl; [done|].
  by rewrite IH.
Qed.

Lemma strict_eq_false (a b : jsstring) : strict_eq a b = false ↔ a ≠ b.
Proof. apply bool_decide_eq_false. Qed.

Lemma create_keeps_pending id id' now request σ :
  still_pending id σ →
  still_pending id (snd (create id' now request σ)) ∧
  waiters (snd (create id' now request σ)) = waiters σ.
Proof.
  intros (e & He & Hs). unfold create, put. simpl.
  destruct (store σ !! id') eqn:E; simpl; [by split; [exists e|]|].
  split; [|done]. exists e. split; [|done].
  rewrite store_broadcast. simpl. rewrite lookup_insert_ne; [done | congruence].
Qed.

Lemma respond_other_keeps id id' text now σ :
  id' ≠ id →
  store (snd (respond id' text now σ)) !! id = store σ !! id ∧
  waiters (snd (respond id' text now σ)) !! id = waiters σ !! id.
Proof.
  intros Hne. unfold respond, compareAndTransitionToResolved.
  destruct (store σ !! id') as [e'|]; [|done].
  destruct (status e'); [|done]. simpl. split.
  - rewrite store_deliver, store_broadcast. simpl. by rewrite lookup_insert_ne.
  - by rewrite waiters_deliver_ne, waiters_broadcast.
Qed.

Lemma attachInsight_keeps_pending id id' text σ :
  still_pending id σ →
  still_pending id (snd (attachInsight id' text σ)) ∧
  waiters (snd (attachInsight id' text σ)) = waiters σ.
Proof.
  intros (e & He & Hs). unfold attachInsight.
  destruct (store σ !! id') as [e'|] eqn:E; simpl; [|by split; [exists e|]].
  split; [|done]. unfold still_pending. rewrite store_broadcast. simpl.
  destruct (decide (id' = id)) as [->|Hne].
  - exists (insight_record text e'). rewrite lookup_insert_eq.
    split; [done|]. simpl. congruence.
  - exists e. by rewrite lookup_insert_ne.
Qed.

Lemma step_keeps_pending id op σ :
  responds_to id op = false → still_pending id σ → still_pending id (step op σ).
Proof.
  intros Hop Hp. pose proof Hp as (e & He & Hs).
  destruct op as [id' now request|id' text now|id' text|id'|id'|h|h]; simpl.
  - by apply create_keeps_pending.
  - simpl in Hop. apply strict_eq_false in Hop.
    destruct (respond_other_keeps id id' text now σ Hop) as [Hst _].
    exists e. by rewrite Hst.
  - by apply attachInsight_keeps_pending.
  - unfold registerWaiter. by destruct (waiters σ !! id').
  - done.
  - done.
  - done.
Qed.

Lemma run_keeps_pending id ops σ :
  Forall (fun op => responds_to id op = false) ops →
  still_pending id σ → still_pending id (run ops σ).
Proof.
  intros Hops. revert σ. induction Hops as [|op ops Hop _ IH]; intros σ Hp; [done|].
  apply (IH (step op σ)). by apply step_keeps_pending.
Qed.

(** One step of the others while the agent waits with an empty channel:
    the channel stays empty and the record pending, or the step was the
    response and it now sits in the channel. *)
Lemma step_while_waiting id op σ :
  waiters σ !! id = Some None → still_pending id σ →
  finishes_await id op = false →
  (waiters (step op σ) !! id = Some None ∧ still_pending id (step op σ)) ∨
  (∃ text, waiters (step op σ) !! id = Some (Some text)).
Proof.
  intros Hw Hp Hop. pose proof Hp as (e & He & Hs).
  destruct op as [id' now request|id' text now|id' text|id'|id'|h|h]; simpl.
  - left. destruct (create_keeps_pending id id' now request σ Hp) as [? ->]. done.
  - destruct (decide (id' = id)) as [->|Hne].
    + right. exists text. rewrite (respond_pending _ _ _ _ _ He Hs). simpl.
      apply waiters_deliver_registered. by rewrite waiters_broadcast; simpl; rewrite Hw.
    + left. destruct (respond_other_keeps id id' text now σ Hne) as [Hst ->].
      split; [done|]. exists e. by rewrite Hst.
  - left. destruct (attachInsight_keeps_pending id id' text σ Hp) as [? ->]. done.
  - left. unfold registerWaiter. destruct (waiters σ !! id') eqn:E; [done|].
    simpl. split; [|done]. rewrite lookup_insert_ne; [done | congruence].
  - left. simpl in Hop. apply strict_eq_false in Hop.
    split; [|done]. simpl. by rewrite lookup_delete_ne.
  - by left.
  - by left.
Qed.

Lemma suspended_delivered id during σ text :
  waiters σ !! id = Some (Some text) →
  suspended id during σ = (Resolved text, unregisterWaiter id σ, during).
Proof. intros Hw. destruct during; simpl; by rewrite Hw. Qed.

Lemma suspended_timed_out id during σ σ' rest :
  waiters σ !! id = Some None → still_pending id σ →
  Forall (fun op => finishes_await id op = false) during →
  suspended id during σ = (TimedOut, σ', rest) →
  still_pending id σ' ∧ waiters σ' !! id = None.
Proof.
  intros Hw Hp Hops. revert σ Hw Hp.
  induction Hops as [|op ops Hop _ IH]; intros σ Hw Hp; simpl; rewrite Hw.
  - intros [= <- _]. split; [done|]. simpl. apply lookup_delete_eq.
  - destruct (step_while_waiting id op σ Hw Hp Hop) as [[Hw' Hp']|[text Hd]].
    + by apply IH.
    + by rewrite (suspended_delivered _ _ _ _ Hd).
Qed.

End OrchestratorFacts.

Import Orchestrator OrchestratorFacts.

Lemma last_all_leave (σ0 σ1 : System) (x : Result unit * System)
    (l : list (Result unit * System)) :
  snd x = σ1 → Forall (fun y => snd y = σ1) l →
  from_option snd σ0 (last (x :: l)) = σ1.
Proof.
  intros Hx Hl. revert x Hx. induction Hl as [|y l Hy Hl IH]; intros x Hx; [done|].
  change (from_option snd σ0 (last (y :: l)) = σ1). by apply IH.
Qed.

(** C1: for every escalation id and every set of [respond] calls made
    while that escalation is pending, in whatever order their atomic
    sections run, exactly one call succeeds, and the stored response is
    its text; every other call fails with [AlreadyResolved] and leaves the
    system as it found it. *)
Theorem respond_exactly_once (σ : System) (id : jsstring) (e : Escalation)
    (calls sched : list (jsstring * jsstring)) :
  store σ !! id = Some e → status e = pending →
  calls ≠ [] → sched ≡ₚ calls →
  let trace := respond_all id sched σ in
  ∃ (k : nat) text now,
    sched !! k = Some (text, now) ∧ (text, now) ∈ calls ∧
    fst <$> trace !! k = Some (Ok tt) ∧
    (∀ j : nat, j ≠ k → (j < length sched)%nat →
       fst <$> trace !! j = Some (Err AlreadyResolved)) ∧
    (∀ (j : nat) r σ', trace !! j = Some (r, σ') → r ≠ Ok tt →
       σ' = state_before σ trace j) ∧
    ∃ e', store (state_after_all σ trace) !! id = Some e' ∧
          status e' = resolved ∧ human_response e' = Some text.
Proof.
  intros He Hs Hne Hperm trace.
  destruct sched as [|[text now] rest].
  { apply Permutation_nil in Hperm. contradiction. }
  exists 0%nat, text, now. subst trace. simpl.
  rewrite (respond_pending _ _ _ _ _ He Hs). simpl.
  set (e1 := resolve_record text now e).
  set (σ1 := deliver id text _).
  assert (store σ1 !! id = Some e1) as He1.
  { subst σ1. rewrite store_deliver, store_broadcast. simpl. apply lookup_insert_eq. }
  rewrite (respond_all_resolved id rest σ1 e1 He1 eq_refl).
  split; [done|]. split; [rewrite <- Hperm; apply list_elem_of_here|].
  split; [done|]. split; [|split].
  - intros [|j] Hj Hlt; [done|]. simpl. rewrite list_lookup_fmap.
    destruct (lookup_lt_is_Some_2 rest j) as [c ->]; [lia | done].
  - intros [|j] r σ' Hj Hr; simpl in Hj.
    + injection Hj as <- <-. by destruct Hr.
    + rewrite list_lookup_fmap in Hj.
      destruct (rest !! j) as [c|] eqn:Ej; [|done]. injection Hj as <- <-.
      destruct j as [|j]; simpl; [done|]. rewrite list_lookup_fmap.
      destruct (lookup_lt_is_Some_2 rest j) as [c' ->]; [|done].
      apply lookup_lt_Some in Ej. lia.
  - exists e1. split; [|done]. unfold state_after_all.
    rewrite (last_all_leave σ σ1); [done | done |].
    rewrite Forall_fmap. by apply Forall_true.
Qed.

Lemma respond_exactly_once_witness :
  let e1 := sample "E1" pending "2025-01-01T10:00:00" in
  let σ := {| store := {[ js "E1" := e1 ]}; waiters := ∅; consoles := ∅ |} in
  let approve := (js "approve", js "2025-01-01T10:06:00") in
  let deny := (js "deny", js "2025-01-01T10:06:00") in
  let trace := respond_all (js "E1") [deny; approve] σ in
  store σ !! js "E1" = Some e1 ∧
  ∃ (k : nat) text now,
    [deny; approve] !! k = Some (text, now) ∧ (text, now) ∈ [approve; deny] ∧
    fst <$> trace !! k = Some (Ok tt) ∧
    (∀ j : nat, j ≠ k → (j < 2)%nat → fst <$> trace !! j = Some (Err AlreadyResolved)) ∧
    (∀ (j : nat) r σ', trace !! j = Some (r, σ') → r ≠ Ok tt →
       σ' = state_before σ trace j) ∧
    ∃ e', store (state_after_all σ trace) !! js "E1" = Some e' ∧
          status e' = resolved ∧ human_response e' = Some text.
Proof.
  intros e1 σ approve deny trace.
  assert (store σ !! js "E1" = Some e1) as He by (vm_compute; reflexivity).
  split; [exact He|].
  apply (respond_exactly_once σ (js "E1") e1 [approve; deny] [deny; approve] He eq_refl).
  - discriminate.
  - apply Permutation_swap.
Defined.

(** ** The orchestrator: a timed-out await *)





(** ** Selecting an escalation *)

(** X1: clicking the card of the escalation that is already selected
    closes it: the selection and the typed text are cleared, nothing is
    requested, and the list and the submitting flag are untouched. *)
Theorem select_again_deselects (escalation sel : Escalation) (reply : DetailReply)
    (s : State) :
  selectedEscalation s = Some sel →
  escalation_id escalation = escalation_id sel →
  let out := handleSelectEscalation escalation reply s in
  effects_of out = [] ∧
  selectedEscalation (state_after out) = None ∧
  responseText (state_after out) = [] ∧
  escalations (state_after out) = escalations s ∧
  isSubmitting (state_after out) = isSubmitting s.
Proof.
  intros Hsel Hid out. subst out. unfold handleSelectEscalation, is_selected.
  rewrite Hsel. unfold strict_eq. rewrite bool_decide_eq_true_2 by done. done.
Qed.

Lemma select_again_deselects_witness :
  let e1 := sample "E1" pending "2025-01-01T10:00:00" in
  let out := handleSelectEscalation e1 detail_threw (answering [e1] e1 "appr") in
  effects_of out = [] ∧ state_after out = showing [e1].
Proof.
  intros e1 out.
  destruct (select_again_deselects e1 e1 detail_threw (answering [e1] e1 "appr")
              eq_refl eq_refl) as (H1 & _).
  split; [exact H1 | reflexivity].
Defined.



(** ** More on submitting a response *)

(** X3: an accepted submission ends the operator's turn: the respond
    request is followed by exactly one re-fetch of the pending list, the
    typed text and the selection are cleared, [isSubmitting] is off, and
    the list becomes the server's list; if the re-fetch fails the list
    stays as it was and the failure is only logged. *)
Theorem accepted_submission_rehydrates (refetch : ListReply) (s : State)
    (sel : Escalation) :
  selectedEscalation s = Some sel →
  ¬ blank (responseText s) →
  let out := handleSubmitResponse respond_ok refetch s in
  List.filter is_respond_request (effects_of out) =
    [Fetch (POST_respond (escalation_id sel) (trim (responseText s)))] ∧
  List.filter is_refetch (effects_of out) = [Fetch GET_pending] ∧
  List.filter is_alert (effects_of out) = [] ∧
  selectedEscalation (state_after out) = None ∧
  responseText (state_after out) = [] ∧
  isSubmitting (state_after out) = false ∧
  escalations (state_after out) =
    match refetch with
    | list_body escs => default [] escs
    | list_threw => escalations s
    end.
Proof.
  intros Hsel Hnb out.
  assert (truthy (trim (responseText s)) = true) as Ht.
  { destruct (truthy _) eqn:E; [done|].
    apply truthy_false, trim_blank in E. contradiction. }
  subst out. rewrite (submit_effects _ _ _ _ Hsel Ht).
  unfold handleSubmitResponse. rewrite Hsel, Ht. by destruct refetch.
Qed.

Lemma accepted_submission_rehydrates_witness :
  let e1 := sample "E1" pending "2025-01-01T10:00:00" in
  let e2 := sample "E2" pending "2025-01-01T10:05:00" in
  let out := handleSubmitResponse respond_ok (list_body (Some [e2]))
               (answering [e2; e1] e1 "approve") in
  effects_of out = [Fetch (POST_respond (js "E1") (js "approve")); Fetch GET_pending] ∧
  state_after out = showing [e2].
Proof.
  intros e1 e2 out. split; [|reflexivity].
  assert (¬ blank (responseText (answering [e2; e1] e1 "approve"))) as Hnb.
  { intros Hb. apply Forall_inv in Hb. vm_compute in Hb. discriminate Hb. }
  destruct (accepted_submission_rehydrates (list_body (Some [e2]))
              (answering [e2; e1] e1 "approve") e1 eq_refl Hnb) as (_ & _ & _).
  reflexivity.
Defined.

(** X4: whatever the server answers, a submission that went out issues
    exactly one respond request and ends with [isSubmitting] off; and
    unless the server accepted it, the list, the selection and the typed
    text are exactly as before, so the operator can submit again. *)
Theorem submission_always_settles (reply : RespondReply) (refetch : ListReply)
    (s : State) (sel : Escalation) :
  selectedEscalation s = Some sel →
  ¬ blank (responseText s) →
  let out := handleSubmitResponse reply refetch s in
  List.filter is_respond_request (effects_of out) =
    [Fetch (POST_respond (escalation_id sel) (trim (responseText s)))] ∧
  isSubmitting (state_after out) = false ∧
  (reply ≠ respond_ok →
     state_after out = setIsSubmitting false s ∧
     List.filter is_refetch (effects_of out) = [] ∧
     ∃ msg, List.filter is_alert (effects_of out) = [Alert msg] ∧ msg ≠ []).
Proof.
  intros Hsel Hnb out.
  assert (truthy (trim (responseText s)) = true) as Ht.
  { destruct (truthy _) eqn:E; [done|].
    apply truthy_false, trim_blank in E. contradiction. }
  subst out. rewrite (submit_effects _ _ _ _ Hsel Ht).
  unfold handleSubmitResponse. rewrite Hsel, Ht.
  destruct reply as [|[detail|]|]; simpl.
  - split; [by destruct refetch|]. split; [by destruct refetch | done].
  - split; [done|]. split; [done|]. intros _. split; [done|]. split; [done|].
    eexists. split; [reflexivity | discriminate].
  - split; [done|]. split; [done|]. intros _. split; [done|]. split; [done|].
    eexists. split; [reflexivity | discriminate].
  - split; [done|]. split; [done|]. intros _. split; [done|]. split; [done|].
    eexists. split; [reflexivity | discriminate].
Qed.

Lemma submission_always_settles_witness :
  let e1 := sample "E1" pending "2025-01-01T10:00:00" in
  let s := answering [e1] e1 "approve" in
  let out := handleSubmitResponse respond_threw list_threw s in
  List.filter is_respond_request (effects_of out) =
    [Fetch (POST_respond (js "E1") (js "approve"))] ∧
  state_after out = setIsSubmitting false s.
Proof.
  intros e1 s out.
  assert (¬ blank (responseText s)) as Hnb.
  { intros Hb. apply Forall_inv in Hb. vm_compute in Hb. discriminate Hb. }
  destruct (submission_always_settles respond_threw list_threw s e1 eq_refl Hnb)
    as (H1 & _ & H3).
  split; [exact H1|]. by apply H3.
Defined.

(** X5: the submit button is enabled only in the panel of a pending
    selected escalation, with a text that is not blank and no submission
    in flight; clicking it then sends exactly one respond request, for
    the selected escalation, with the trimmed text. *)
Theorem enabled_button_sends (reply : RespondReply) (refetch : ListReply)
    (s : State) (sel : Escalation) (label : jsstring) :
  render s = PanelView sel (ResponseForm false label) →
  status sel = pending ∧ isSubmitting s = false ∧ ¬ blank (responseText s) ∧
  label = js "Submit Response" ∧
  List.filter is_respond_request
    (effects_of (handleSubmitResponse reply refetch s)) =
    [Fetch (POST_respond (escalation_id sel) (trim (responseText s)))].
Proof.
  unfold render, response_area, submit_disabled. intros Hview.
  destruct (selectedEscalation s) as [sel'|] eqn:Hsel; [|discriminate Hview].
  destruct (status sel') eqn:Hst; [|discriminate Hview].
  injection Hview as -> Hdis Hlabel.
  apply orb_false_elim in Hdis as [Ht Hsub].
  apply negb_false_iff in Ht.
  assert (¬ blank (responseText s)) as Hnb.
  { intros Hb. apply trim_blank in Hb. rewrite Hb in Ht. discriminate Ht. }
  rewrite Hsub in Hlabel. repeat split; try done.
  rewrite (submit_effects _ _ _ _ Hsel Ht). simpl.
  by destruct reply as [|[detail|]|], refetch.
Qed.

Lemma enabled_button_sends_witness :
  let e1 := sample "E1" pending "2025-01-01T10:00:00" in
  let s := answering [e1] e1 " approve " in
  render s = PanelView e1 (ResponseForm false (js "Submit Response")) ∧
  List.filter is_respond_request
    (effects_of (handleSubmitResponse respond_ok list_threw s)) =
    [Fetch (POST_respond (js "E1") (js "approve"))].
Proof.
  intros e1 s.
  assert (render s = PanelView e1 (ResponseForm false (js "Submit Response"))) as Hview
    by reflexivity.
  split; [exact Hview|].
  destruct (enabled_button_sends respond_ok list_threw s e1 _ Hview) as (_ & _ & _ & _ & H).
  exact H.
Defined.

(** ** More on the message handler *)

Section Messages.

Implicit Types (e esc : Escalation) (l : list Escalation) (id : jsstring)
  (s : State) (r : Revision) (msg : Message).

Lemma replace_escalation_twice id esc l :
  replace_escalation id esc (replace_escalation id esc l) = replace_escalation id esc l.
Proof.
  unfold replace_escalation. rewrite map_map. apply map_ext. intros e.
  destruct (has_id id e) eqn:E; simpl; [by destruct (has_id id esc) | by rewrite E].
Qed.

Lemma add_escalation_twice esc l :
  add_escalation esc (add_escalation esc l) = add_escalation esc l.
Proof.
  destruct (add_escalation_cases esc l) as [H|[_ H]]; rewrite H; [done|].
  apply add_escalation_known. simpl. apply list_elem_of_here.
Qed.

Lemma replace_escalation_ids id esc l :
  escalation_id esc = id → ids (replace_escalation id esc l) = ids l.
Proof.
  intros Hid. unfold ids, replace_escalation. rewrite map_map. apply map_ext_in.
  intros e _. destruct (has_id id e) eqn:E; [|done].
  apply has_id_true in E. congruence.
Qed.

Lemma replace_escalation_swap id1 id2 e1 e2 l :
  escalation_id e1 = id1 → escalation_id e2 = id2 → id1 ≠ id2 →
  replace_escalation id1 e1 (replace_escalation id2 e2 l) =
  replace_escalation id2 e2 (replace_escalation id1 e1 l).
Proof.
  intros H1 H2 Hne. unfold replace_escalation. rewrite !map_map. apply map_ext.
  intros e.
  assert (has_id id1 e2 = false) as E12 by (apply has_id_false; congruence).
  assert (has_id id2 e1 = false) as E21 by (apply has_id_false; congruence).
  destruct (has_id id2 e) eqn:Ea, (has_id id1 e) eqn:Eb;
    rewrite ?E12, ?E21, ?Ea, ?Eb; try done.
  apply has_id_true in Ea, Eb. congruence.
Qed.

Lemma receive_update_event r insight id esc s :
  receive r (update_event insight id esc) s =
  match r, insight with
  | WithoutInsights, true => s
  | _, _ => setEscalations (replace_escalation id esc) s
  end.
Proof. by destruct r, insight. Qed.

Lemma filter_pending_resolved l :
  List.filter is_pending l ++ List.filter is_resolved l ≡ₚ l.
Proof.
  induction l as [|e l IH]; simpl; [done|].
  unfold is_pending, is_resolved at 1. destruct (status e); simpl.
  - by constructor.
  - rewrite <- Permutation_middle. by constructor.
Qed.

End Messages.

(** X6: what messages from the server do to the operator's work.  No
    payload, in either revision, ever touches the typed text or the
    submitting flag.  Payloads that carry the fields of their type never
    touch the selection either (the handler closes over the first
    render's [null]), so an open panel keeps showing the record it was
    opened with.  But an update event that lacks its top-level
    [escalation_id] makes its record the selection, whatever was
    selected, and leaves the list as it is. *)
Theorem messages_leave_operator_input (r : Revision) (ps : list Payload) (s : State) :
  let s' := arrive_all r ps s in
  responseText s' = responseText s ∧
  isSubmitting s' = isSubmitting s ∧
  (∀ msgs, ps = typed <$> msgs →
     s' = receive_all r msgs s ∧
     selectedEscalation s' = selectedEscalation s ∧
     render s' = match selectedEscalation s with
                 | Some sel => render s
                 | None => ListView (pendingEscalations s')
                 end) ∧
  (∀ insight esc, has_branch r insight = true →
     selectedEscalation (arrive r (update_without_id insight esc) s) = Some esc ∧
     escalations (arrive r (update_without_id insight esc) s) = escalations s).
Proof.
  intros s'.
  assert (responseText s' = responseText s ∧ isSubmitting s' = isSubmitting s) as [Ht Hs].
  { subst s'. revert s. induction ps as [|p ps IH]; intros s; [done|].
    change (arrive_all r (p :: ps) s) with (arrive_all r ps (arrive r p s)).
    destruct (IH (arrive r p s)) as (-> & ->).
    destruct p as [[escs|esc|id esc|id esc|]|insight esc]; try by destruct r.
    by destruct r, insight. }
  split; [done|]. split; [done|]. split.
  - intros msgs ->.
    assert (arrive_all r (typed <$> msgs) s = receive_all r msgs s) as Heq.
    { clear. revert s. induction msgs as [|msg msgs IH]; intros s; [done|]. apply IH. }
    subst s'. rewrite Heq in *. clear Heq Ht Hs.
    assert (selectedEscalation (receive_all r msgs s) = selectedEscalation s ∧
            responseText (receive_all r msgs s) = responseText s ∧
            isSubmitting (receive_all r msgs s) = isSubmitting s) as (Hsel & Ht & Hs).
    { revert s. induction msgs as [|msg msgs IH]; intros s; [done|].
      change (receive_all r (msg :: msgs) s) with (receive_all r msgs (receive r msg s)).
      destruct (IH (receive r msg s)) as (-> & -> & ->).
      by destruct msg as [escs|esc|id esc|id esc|], r. }
    split; [done|]. split; [done|].
    unfold render, response_area, submit_disabled. rewrite Hsel, Ht, Hs.
    by destruct (selectedEscalation s).
  - intros insight esc Hb. unfold arrive, onpayload.
    destruct r, insight; try discriminate Hb; simpl; by rewrite map_id.
Qed.

Lemma messages_leave_operator_input_witness :
  let e1 := sample "E1" pending "2025-01-01T10:00:00" in
  let e2 := sample "E2" pending "2025-01-01T10:05:00" in
  let r1 := sample "E1" resolved "2025-01-01T10:00:00" in
  let s := answering [e1] e1 "appr" in
  arrive_all WithInsights
    [typed (new_escalation e2); typed (escalation_resolved (js "E1") r1)] s
  = answering [e2; r1] e1 "appr" ∧
  selectedEscalation (arrive WithInsights (update_without_id false e2) s) = Some e2.
Proof.
  intros e1 e2 r1 s. split; [reflexivity|].
  destruct (messages_leave_operator_input WithInsights [] s) as (_ & _ & _ & H).
  by apply (H false e2).
Defined.

(** X7: every message is idempotent: receiving the same message twice in
    a row leaves the state that receiving it once leaves, so a duplicated
    delivery is harmless. *)
Theorem duplicate_message_harmless (r : Revision) (msg : Message) (s : State) :
  receive r msg (receive r msg s) = receive r msg s.
Proof.
  destruct msg as [escs|esc|id esc|id esc|]; unfold receive; simpl; try done.
  - unfold setEscalations. simpl. by rewrite add_escalation_twice.
  - unfold setEscalations. simpl. by rewrite replace_escalation_twice.
  - destruct r; [done|]. unfold setEscalations. simpl.
    by rewrite replace_escalation_twice.
Qed.

(** X8: update events of different escalations commute: when each event
    carries the record of the escalation it names, the two orders of
    receiving a resolution or insight for one id and one for another id
    leave the same state. *)
Theorem updates_of_different_escalations_commute (r : Revision) (k1 k2 : bool)
    (id1 id2 : jsstring) (e1 e2 : Escalation) (s : State) :
  escalation_id e1 = id1 → escalation_id e2 = id2 → id1 ≠ id2 →
  receive r (update_event k1 id1 e1) (receive r (update_event k2 id2 e2) s) =
  receive r (update_event k2 id2 e2) (receive r (update_event k1 id1 e1) s).
Proof.
  intros H1 H2 Hne. rewrite !receive_update_event.
  destruct r, k1, k2; try done; unfold setEscalations; simpl;
    by rewrite (replace_escalation_swap id1 id2 e1 e2 _ H1 H2 Hne).
Qed.

Lemma updates_of_different_escalations_commute_witness :
  let e1 := sample "E1" pending "2025-01-01T10:00:00" in
  let e2 := sample "E2" pending "2025-01-01T10:05:00" in
  let r1 := sample "E1" resolved "2025-01-01T10:00:00" in
  let i2 := Orchestrator.insight_record (js "- within policy") e2 in
  receive WithInsights (escalation_resolved (js "E1") r1)
    (receive WithInsights (insights_updated (js "E2") i2) (showing [e2; e1])) =
  receive WithInsights (insights_updated (js "E2") i2)
    (receive WithInsights (escalation_resolved (js "E1") r1) (showing [e2; e1])).
Proof.
  intros e1 e2 r1 i2.
  apply (updates_of_different_escalations_commute WithInsights false true
           (js "E1") (js "E2") r1 i2 (showing [e2; e1])); [reflexivity | reflexivity |].
  discriminate.
Defined.

(** X9: no escalation is ever listed twice.  If the list has no repeated
    ids, then after any sequence of messages in which snapshots have no
    repeated ids and update events carry the record of the escalation
    they name, the list and the displayed pending list have no repeated
    ids either. *)
Theorem ids_stay_unique (r : Revision) (msgs : list Message) (s : State) :
  Forall well_formed msgs →
  NoDup (ids (escalations s)) →
  NoDup (ids (escalations (receive_all r msgs s))) ∧
  NoDup (ids (pendingEscalations (receive_all r msgs s))).
Proof.
  intros Hwf Hd.
  assert (NoDup (ids (escalations (receive_all r msgs s)))) as H.
  { revert s Hd. induction Hwf as [|msg msgs Hmsg _ IH]; intros s Hd; [done|].
    change (receive_all r (msg :: msgs) s) with (receive_all r msgs (receive r msg s)).
    apply IH. destruct msg as [[escs|]|esc|id esc|id esc|]; simpl in *.
    - done.
    - apply NoDup_nil_2.
    - destruct (add_escalation_cases esc (escalations s)) as [->|[Hn ->]]; [done|].
      simpl. apply NoDup_cons. by split.
    - by rewrite replace_escalation_ids.
    - destruct r; [done|]. simpl. by rewrite replace_escalation_ids.
    - done. }
  split; [done|]. by apply filter_ids_NoDup.
Qed.

Lemma ids_stay_unique_witness :
  let e1 := sample "E1" pending "2025-01-01T10:00:00" in
  let e2 := sample "E2" pending "2025-01-01T10:05:00" in
  let r1 := sample "E1" resolved "2025-01-01T10:00:00" in
  let msgs := [initial_state (Some [e1]); new_escalation e2; new_escalation e1;
               escalation_resolved (js "E1") r1] in
  escalations (receive_all WithInsights msgs initial) = [e2; r1] ∧
  NoDup (ids (escalations (receive_all WithInsights msgs initial))) ∧
  NoDup (ids (pendingEscalations (receive_all WithInsights msgs initial))).
Proof.
  intros e1 e2 r1 msgs. split; [reflexivity|].
  apply (ids_stay_unique WithInsights msgs initial).
  - apply Forall_cons_2; [apply NoDup_singleton|].
    apply Forall_cons_2; [exact I|]. apply Forall_cons_2; [exact I|].
    apply Forall_cons_2; [reflexivity | apply Forall_nil_2].
  - apply NoDup_nil_2.
Defined.

(** X10: the pending and the resolved projection split the list: every
    escalation of the list is in exactly one of the two, so the two
    counts add up to the length of the list. *)
Theorem pending_and_resolved_split (s : State) :
  pendingEscalations s ++ resolvedEscalations s ≡ₚ escalations s ∧
  (length (pendingEscalations s) + length (resolvedEscalations s))%nat
    = length (escalations s) ∧
  ∀ e, e ∈ escalations s →
       (e ∈ pendingEscalations s ∧ e ∉ resolvedEscalations s) ∨
       (e ∈ resolvedEscalations s ∧ e ∉ pendingEscalations s).
Proof.
  pose proof (filter_pending_resolved (escalations s)) as Hperm.
  split; [exact Hperm|]. split.
  - rewrite <- (Permutation_length Hperm). symmetry. apply length_app.
  - intros e He. unfold pendingEscalations, resolvedEscalations.
    rewrite !list_elem_of_In, !filter_In. apply list_elem_of_In in He.
    unfold is_pending, is_resolved. destruct (status e); [left|right]; split;
      try (by split); intros [_ H]; done.
Qed.

(** X11: an escalation's passage through the console.  A pending
    escalation announced under a new id is put in front; when its
    resolution arrives, the resolved record takes its place: the pending
    list is what it was before the escalation came, and the record heads
    the resolved ones. *)
Theorem announced_then_resolved (r : Revision) (e e' : Escalation) (s : State) :
  escalation_id e ∉ ids (escalations s) →
  status e' = resolved →
  let s1 := receive r (new_escalation e) s in
  let s2 := receive r (escalation_resolved (escalation_id e) e') s1 in
  escalations s1 = e :: escalations s ∧
  escalations s2 = e' :: escalations s ∧
  pendingEscalations s2 = pendingEscalations s ∧
  resolvedEscalations s2 = e' :: resolvedEscalations s.
Proof.
  intros Hfresh Hres s1 s2.
  assert (escalations s1 = e :: escalations s) as H1.
  { subst s1. simpl. by apply add_escalation_fresh. }
  assert (escalations s2 = e' :: escalations s) as H2.
  { subst s2 s1. unfold receive. simpl.
    rewrite (add_escalation_fresh _ _ Hfresh). simpl.
    assert (has_id (escalation_id e) e = true) as -> by by apply has_id_true.
    f_equal. by apply replace_escalation_unknown. }
  split; [done|]. split; [done|].
  unfold pendingEscalations, resolvedEscalations. rewrite H2. simpl.
  unfold is_pending at 1, is_resolved at 1. by rewrite Hres.
Qed.

Lemma announced_then_resolved_witness :
  let e1 := sample "E1" pending "2025-01-01T10:00:00" in
  let e2 := sample "E2" pending "2025-01-01T10:05:00" in
  let r2 := sample "E2" resolved "2025-01-01T10:05:00" in
  let s2 := receive WithoutInsights (escalation_resolved (js "E2") r2)
              (receive WithoutInsights (new_escalation e2) (showing [e1])) in
  escalations s2 = [r2; e1] ∧
  pendingEscalations s2 = [e1] ∧ resolvedEscalations s2 = [r2].
Proof.
  intros e1 e2 r2 s2.
  destruct (announced_then_resolved WithoutInsights e2 r2 (showing [e1]))
    as (_ & H2 & H3 & H4); [| reflexivity |].
  - vm_compute. intros H. apply list_elem_of_In in H. simpl in H.
    destruct H as [H|[]]. discriminate H.
  - split; [exact H2|]. split; [exact H3 | exact H4].
Defined.

(** ** Text shown on the cards and in the panel *)

Section TextFacts.

Implicit Types (s t pat rep line : jsstring) (c sep : N).

Lemma split_on_cons sep s : ∃ line lines, split_on sep s = line :: lines.
Proof.
  induction s as [|c s (line & lines & IH)]; simpl; [by eexists _, _|].
  destruct (c =? sep); [by eexists _, _|]. rewrite IH. by eexists _, _.
Qed.

Lemma split_on_units sep s line c :
  line ∈ split_on sep s → c ∈ line → c ∈ s ∧ c ≠ sep.
Proof.
  revert line. induction s as [|d s IH]; simpl; intros line Hline Hc.
  - apply list_elem_of_singleton in Hline as ->. by apply not_elem_of_nil in Hc.
  - destruct (d =? sep) eqn:E.
    + apply elem_of_cons in Hline as [->|Hline]; [by apply not_elem_of_nil in Hc|].
      destruct (IH line Hline Hc) as [? ?]. split; [by apply list_elem_of_further | done].
    + apply N.eqb_neq in E.
      destruct (split_on_cons sep s) as (l0 & ls & Hs). rewrite Hs in Hline, IH.
      apply elem_of_cons in Hline as [->|Hline].
      * apply elem_of_cons in Hc as [->|Hc]; [split; [apply list_elem_of_here | done]|].
        destruct (IH l0 (list_elem_of_here _ _) Hc) as [? ?].
        split; [by apply list_elem_of_further | done].
      * destruct (IH line (list_elem_of_further _ _ _ Hline) Hc) as [? ?].
        split; [by apply list_elem_of_further | done].
Qed.

Lemma join_split sep s : join_with sep (split_on sep s) = s.
Proof.
  induction s as [|c s IH]; [done|]. cbn [split_on].
  destruct (split_on_cons sep s) as (l0 & ls & Hs). rewrite Hs in IH |- *.
  destruct (c =? sep) eqn:E.
  - apply N.eqb_eq in E as ->.
    change (join_with sep ([] :: l0 :: ls)) with (sep :: join_with sep (l0 :: ls)).
    by rewrite IH.
  - destruct ls as [|l1 ls].
    + change (c :: join_with sep [l0] = c :: s). by rewrite IH.
    + change (c :: join_with sep (l0 :: l1 :: ls) = c :: s). by rewrite IH.
Qed.

Lemma trim_units s c : c ∈ trim s → c ∈ s.
Proof.
  intros Hc. destruct (trim_split s) as (pre & post & Hs & _).
  rewrite Hs. rewrite !elem_of_app. auto.
Qed.

Lemma replace_first_absent pat rep s :
  occurs pat s = false → replace_first pat rep s = s.
Proof.
  induction s as [|c s IH]; simpl; intros H; apply orb_false_elim in H as [-> H]; [done|].
  by rewrite IH.
Qed.

Lemma replace_first_unit c d s :
  ((c ∉ s) → replace_first [c] [d] s = s) ∧
  (∀ pre post, s = pre ++ c :: post → (c ∉ pre) →
               replace_first [c] [d] s = pre ++ d :: post).
Proof.
  split.
  - induction s as [|x s IH]; [done|]. rewrite not_elem_of_cons. intros [Hne Hs].
    simpl. assert ((c =? x) = false) as -> by by apply N.eqb_neq.
    simpl. by rewrite IH.
  - intros pre. revert s. induction pre as [|x pre IH]; intros s post -> Hpre; simpl.
    + by rewrite N.eqb_refl.
    + apply not_elem_of_cons in Hpre as [Hne Hpre].
      assert ((c =? x) = false) as -> by by apply N.eqb_neq.
      simpl. by rewrite (IH _ post eq_refl Hpre).
Qed.

Lemma omap_no_longer {A B} (f : A → option B) (l : list A) :
  (length (omap f l) ≤ length l)%nat.
Proof.
  induction l as [|x l IH]; [done|]. cbn [omap list_omap length].
  destruct (f x); cbn [length]; lia.
Qed.

End TextFacts.

(** X12: the insight text is shown line by line.  Every row comes from
    one line of the text, trimmed; no row is empty, begins or ends with
    white space, or holds a line break; the bullet flag is decided on the
    trimmed line alone; and a text of white space only gives no rows. *)
Theorem insight_rows_are_trimmed_lines (text : jsstring) :
  (∀ b t, (b, t) ∈ insight_rows text →
     t ≠ [] ∧
     (∀ c, head t = Some c ∨ last t = Some c → is_white_space c = false) ∧
     (0x0A ∉ t) ∧ b = isBullet t ∧
     ∃ line, line ∈ split_on 0x0A text ∧ t = trim line) ∧
  (length (insight_rows text) ≤ length (split_on 0x0A text))%nat ∧
  (blank text → insight_rows text = []).
Proof.
  split; [|split].
  - intros b t Hrow. unfold insight_rows in Hrow.
    apply list_elem_of_omap in Hrow as (line & Hline & Hrow).
    unfold insight_row in Hrow. destruct (truthy (trim line)) eqn:Ht; [|done].
    injection Hrow as <- <-.
    split; [by destruct (trim line)|].
    split; [intros c [Hc|Hc]; [by apply (trim_head line) | by apply (trim_last line)]|].
    split; [|split; [done | by exists line]].
    intros Hin. apply trim_units in Hin.
    by destruct (split_on_units _ _ _ _ Hline Hin).
  - unfold insight_rows. apply omap_no_longer.
  - intros Hblank. unfold insight_rows.
    induction (split_on 0x0A text) as [|line lines IH] eqn:E in Hblank |- *; [done|].
    assert (∀ l, l ∈ split_on 0x0A text → insight_row l = None) as Hnone.
    { intros l Hl. unfold insight_row.
      assert (trim l = []) as ->; [|done].
      apply trim_blank. unfold blank in *. rewrite Forall_forall in Hblank |- *.
      intros c Hc. apply Hblank. by destruct (split_on_units _ _ _ _ Hl Hc). }
    clear IH. rewrite E in Hnone. revert Hnone. generalize (line :: lines).
    intros ls Hls. induction ls as [|l ls IH]; [done|]. simpl.
    rewrite (Hls l) by apply list_elem_of_here.
    apply IH. intros l' Hl'. apply Hls. by apply list_elem_of_further.
Qed.

Lemma insight_rows_are_trimmed_lines_witness :
  insight_rows (js "Summary:" ++ [0x0A] ++ js "  - within policy " ++ [0x0A]
                ++ js "   " ++ [0x0A] ++ js "2. ask finance")
  = [(false, js "Summary:"); (true, js "- within policy"); (true, js "2. ask finance")] ∧
  insight_rows (js "  " ++ [0x0A] ++ js " ") = [].
Proof.
  split; [reflexivity|].
  destruct (insight_rows_are_trimmed_lines (js "  " ++ [0x0A] ++ js " ")) as (_ & _ & H).
  apply H. vm_compute. repeat constructor.
Defined.

(** X13: the card's type line replaces only the first underscore of the
    decision type by a space: a type without an underscore is shown as it
    is, and everything after the first underscore, later underscores
    included, is shown unchanged. *)
Theorem decision_label_first_underscore (e : Escalation) :
  ((0x5F ∉ decision_type e) → decision_label e = decision_type e) ∧
  (∀ pre post, decision_type e = pre ++ 0x5F :: post → (0x5F ∉ pre) →
     decision_label e = pre ++ 0x20 :: post) ∧
  length (decision_label e) = length (decision_type e).
Proof.
  unfold decision_label. change (js "_") with [0x5F]. change (js " ") with [0x20].
  destruct (replace_first_unit 0x5F 0x20 (decision_type e)) as [Habs Hocc].
  split; [done|]. split; [done|].
  destruct (decide (0x5F ∈ decision_type e)) as [Hin|Hn].
  - apply list_elem_of_split_l in Hin as (pre & post & Hs & Hpre).
    rewrite (Hocc pre post Hs Hpre), Hs. by rewrite !length_app.
  - by rewrite Habs.
Qed.

Lemma decision_label_first_underscore_witness :
  let e := {| escalation_id := js "E1"; room_name := []; user_id := []; reason := [];
              urgency := low; decision_type := js "price_match_request";
              context_details := []; recent_transcript := []; status := pending;
              created_at := []; human_response := None; responded_at := None;
              ai_insights := None; insights_generated_at := None |} in
  decision_label e = js "price match_request".
Proof.
  intros e.
  destruct (decision_label_first_underscore e) as (_ & H & _).
  apply (H (js "price") (js "match_request")); [reflexivity|].
  vm_compute. intros Hin. apply list_elem_of_In in Hin. simpl in Hin.
  repeat (destruct Hin as [Hin|Hin]; [discriminate Hin|]). done.
Defined.

(** X14: the WebSocket address is the API base address with its scheme
    switched: [http://] becomes [ws://] and [https://] becomes [wss://],
    the rest of the address staying as it is (provided the rest does not
    itself hold the other scheme prefix); a base with neither prefix is
    used unchanged. *)
Theorem wsUrl_switches_scheme (rest : jsstring) :
  (occurs (js "https://") rest = false →
     wsUrl (js "http://" ++ rest) = js "ws://" ++ rest) ∧
  (occurs (js "http://") rest = false →
     wsUrl (js "https://" ++ rest) = js "wss://" ++ rest) ∧
  (occurs (js "http://") rest = false → occurs (js "https://") rest = false →
     wsUrl rest = rest).
Proof.
  unfold wsUrl. split; [|split].
  - intros H. change (replace_first (js "http://") (js "ws://") (js "http://" ++ rest))
      with (js "ws://" ++ rest).
    change (replace_first (js "https://") (js "wss://") (js "ws://" ++ rest))
      with (js "ws://" ++ replace_first (js "https://") (js "wss://") rest).
    by rewrite replace_first_absent.
  - intros H.
    change (replace_first (js "http://") (js "ws://") (js "https://" ++ rest))
      with (js "https://" ++ replace_first (js "http://") (js "ws://") rest).
    rewrite (replace_first_absent (js "http://") _ rest H). reflexivity.
  - intros H1 H2. rewrite (replace_first_absent (js "http://") _ rest H1).
    by apply replace_first_absent.
Qed.

Lemma wsUrl_switches_scheme_witness :
  wsUrl (js "http://localhost:8000") = js "ws://localhost:8000" ∧
  wsUrl (js "https://api.example.com") = js "wss://api.example.com".
Proof.
  destruct (wsUrl_switches_scheme (js "localhost:8000")) as (H1 & _ & _).
  destruct (wsUrl_switches_scheme (js "api.example.com")) as (_ & H2 & _).
  split; [apply H1 | apply H2]; reflexivity.
Defined.

(** ** The chat application shell *)

Section Identifiers.

Lemma uint_units_inj (d1 d2 : Decimal.uint) : uint_units d1 = uint_units d2 → d1 = d2.
Proof.
  revert d2. induction d1 as [|d1 IH|d1 IH|d1 IH|d1 IH|d1 IH|d1 IH|d1 IH|d1 IH|d1 IH|d1 IH];
    intros [|d2|d2|d2|d2|d2|d2|d2|d2|d2|d2]; simpl; intros H;
    try discriminate H; try done; injection H as H; f_equal; by apply IH.
Qed.

Lemma uint_units_digits (d : Decimal.uint) : Forall (fun c => is_digit c = true) (uint_units d).
Proof. induction d; simpl; by constructor. Qed.

Lemma decimal_inj (a b : N) : decimal a = decimal b → a = b.
Proof. intros H. by apply Unsigned.to_uint_inj, uint_units_inj. Qed.

Lemma decimal_no_dash (n : N) : 0x2D ∉ decimal n.
Proof.
  intros Hin. pose proof (uint_units_digits (N.to_uint n)) as Hd.
  rewrite Forall_forall in Hd. specialize (Hd _ Hin). discriminate Hd.
Qed.

Lemma first_split_unique (c : N) (a b x y : jsstring) :
  c ∉ a → c ∉ b → a ++ c :: x = b ++ c :: y → a = b ∧ x = y.
Proof.
  revert b. induction a as [|z a IH]; intros [|w b] Ha Hb; simpl; intros H.
  - by injection H.
  - injection H as -> _. exfalso. apply Hb, list_elem_of_here.
  - injection H as -> _. exfalso. apply Ha, list_elem_of_here.
  - injection H as -> H. apply not_elem_of_cons in Ha as [_ Ha].
    apply not_elem_of_cons in Hb as [_ Hb].
    destruct (IH b Ha Hb H) as [-> ->]. done.
Qed.

End Identifiers.

(** X15: room names identify the session: two generated room names are
    equal only for the same user id and the same timestamp, whatever
    characters the user id holds. *)
Theorem generateRoomName_injective (u1 u2 : jsstring) (t1 t2 : N) :
  App.generateRoomName u1 t1 = App.generateRoomName u2 t2 → u1 = u2 ∧ t1 = t2.
Proof.
  unfold App.generateRoomName. intros H. apply app_inv_head in H.
  change (js "-") with [0x2D] in H.
  apply (f_equal (@rev N)) in H. rewrite !rev_app_distr in H. simpl in H.
  rewrite <- !app_assoc in H. simpl in H.
  apply first_split_unique in H as [Hd Hu].
  - apply (f_equal (@rev N)) in Hd, Hu. rewrite !rev_involutive in Hd, Hu.
    split; [done | by apply decimal_inj].
  - rewrite list_elem_of_In, <- in_rev, <- list_elem_of_In. apply decimal_no_dash.
  - rewrite list_elem_of_In, <- in_rev, <- list_elem_of_In. apply decimal_no_dash.
Qed.

Lemma generateRoomName_injective_witness :
  App.generateRoomName (js "user_1730000000000_k3j9x2m1q") 1730000001234
    = js "user-user_1730000000000_k3j9x2m1q-1730000001234" ∧
  (js "user_1730000000000_k3j9x2m1q" = js "user_1730000000000_k3j9x2m1q" ∧
   1730000001234 = 1730000001234).
Proof.
  split; [reflexivity|].
  apply (generateRoomName_injective _ _ _ _ eq_refl).
Defined.

(** X16: the user id survives reloads.  The initialiser returns a
    non-empty id and leaves it stored under [userId]; run again on the
    storage it left, at any time and with any random suffix, it returns
    the same id and changes nothing; a non-empty stored id is returned as
    it is; and no other key of the storage is touched. *)
Theorem initUserId_stable (now : N) (suffix : jsstring)
    (localStorage : gmap jsstring jsstring) :
  let id := fst (App.initUserId now suffix localStorage) in
  let storage := snd (App.initUserId now suffix localStorage) in
  id ≠ [] ∧
  storage !! js "userId" = Some id ∧
  (∀ now' suffix', App.initUserId now' suffix' storage = (id, storage)) ∧
  (∀ stored, localStorage !! js "userId" = Some stored → stored ≠ [] →
             id = stored ∧ storage = localStorage) ∧
  (∀ key, key ≠ js "userId" → storage !! key = localStorage !! key).
Proof.
  intros id storage.
  assert (id ≠ [] ∧ storage !! js "userId" = Some id) as [Hne Hst].
  { subst id storage. unfold App.initUserId.
    destruct (localStorage !! js "userId") as [stored|] eqn:E.
    - destruct (truthy stored) eqn:Ht; simpl.
      + split; [by destruct stored | done].
      + split; [discriminate | apply lookup_insert_eq].
    - simpl. split; [discriminate | apply lookup_insert_eq]. }
  split; [done|]. split; [done|]. split; [|split].
  - intros now' suffix'. unfold App.initUserId at 1. rewrite Hst.
    by destruct id.
  - intros stored Hs Hsne. subst id storage. unfold App.initUserId. rewrite Hs.
    by destruct stored.
  - intros key Hkey. subst storage. unfold App.initUserId.
    destruct (localStorage !! js "userId") as [stored|] eqn:E.
    + destruct (truthy stored); simpl; [done|]. by rewrite lookup_insert_ne.
    + simpl. by rewrite lookup_insert_ne.
Qed.

Lemma initUserId_stable_witness :
  let first := App.initUserId 1730000000000 (js "k3j9x2m1q") ∅ in
  fst first = js "user_1730000000000_k3j9x2m1q" ∧
  App.initUserId 1730000999999 (js "zzzzzzzzz") (snd first) = first.
Proof.
  intros first. split; [reflexivity|].
  destruct (initUserId_stable 1730000000000 (js "k3j9x2m1q") ∅) as (_ & _ & H & _).
  subst first. rewrite (H 1730000999999 (js "zzzzzzzzz")).
  symmetry. apply surjective_pairing.
Defined.

(** ** The text chat *)

(** X17: the text chat never sends a blank message and never sends while
    a send is in flight: in both cases submitting changes nothing.
    Otherwise exactly one message goes out, the trimmed text; a sent
    message clears the input, a failed send keeps the text for another
    try; either way [isSending] ends off. *)
Theorem chat_sends_only_real_messages (reply : TextChat.SendReply) (s : TextChat.State) :
  let s' := fst (TextChat.handleSendMessage reply s) in
  let effects := snd (TextChat.handleSendMessage reply s) in
  (blank (TextChat.message s) ∨ TextChat.isSending s = true →
     s' = s ∧ List.filter TextChat.is_send effects = []) ∧
  (¬ blank (TextChat.message s) → TextChat.isSending s = false →
     List.filter TextChat.is_send effects = [TextChat.Send (trim (TextChat.message s))] ∧
     trim (TextChat.message s) ≠ [] ∧
     TextChat.isSending s' = false ∧
     TextChat.message s' =
       match reply with
       | TextChat.send_ok => []
       | TextChat.send_threw => TextChat.message s
       end).
Proof.
  intros s' effects. subst s' effects. unfold TextChat.handleSendMessage. split.
  - intros [Hb|Hs].
    + apply trim_blank in Hb. by rewrite Hb.
    + rewrite Hs, orb_true_r. done.
  - intros Hnb Hs. rewrite Hs, orb_false_r.
    destruct (truthy (trim (TextChat.message s))) eqn:Ht; cycle 1.
    { apply truthy_false, trim_blank in Ht. contradiction. }
    simpl. split; [by destruct reply|].
    split; [by destruct (trim (TextChat.message s))|]. by destruct reply.
Qed.

Lemma chat_sends_only_real_messages_witness :
  let typing := {| TextChat.message := js " hello "; TextChat.isSending := false |} in
  TextChat.handleSendMessage TextChat.send_threw typing =
    (typing, [TextChat.PreventDefault; TextChat.Send (js "hello"); TextChat.ConsoleError]) ∧
  List.filter TextChat.is_send
    (snd (TextChat.handleSendMessage TextChat.send_ok typing)) = [TextChat.Send (js "hello")].
Proof.
  intros typing. split; [reflexivity|].
  destruct (chat_sends_only_real_messages TextChat.send_ok typing) as [_ H].
  destruct H as (H1 & _); [|reflexivity|exact H1].
  intros Hb. apply Forall_inv_tail, Forall_inv in Hb. vm_compute in Hb. discriminate Hb.
Defined.

(** ** The voice chat: token service and connection *)

(** X18: the token service issues exactly one request, carrying the room,
    participant and user it was given.  It returns a token only for an ok
    response with a readable body, and then always with the configured
    LiveKit address, which is never empty.  On an HTTP error whose body is
    a JSON value other than [null], or no JSON at all, the message thrown
    is the backend's [error] text when it has one, a fixed text
    otherwise, and never empty; on an HTTP error whose body is [null] the
    read of [errorData.error] throws, and that error is what is thrown.
    Every failure is logged once and thrown again. *)
Theorem getToken_outcomes (env : option jsstring) (room participant user : jsstring)
    (reply : VoiceChat.TokenReply) :
  let out := VoiceChat.getToken env room participant user reply in
  head (snd out) = Some (VoiceChat.TokenRequest room participant user) ∧
  (∀ tok url, fst out = inr (tok, url) →
     reply = VoiceChat.ok_body tok ∧ url = VoiceChat.LIVEKIT_API_URL env ∧ url ≠ [] ∧
     snd out = [VoiceChat.TokenRequest room participant user]) ∧
  (∀ message, fst out = inl message →
     VoiceChat.thrown reply = Some message ∧
     snd out = [VoiceChat.TokenRequest room participant user; VoiceChat.ConsoleError]) ∧
  (∀ body message, reply = VoiceChat.not_ok body → fst out = inl message →
     message ≠ [] ∧
     (body = None → message = js "Failed to get LiveKit token") ∧
     (∀ e, body = Some (Some e) → e ≠ [] → message = e) ∧
     (body = Some None ∨ body = Some (Some []) →
        message = js "Failed to get LiveKit token from backend")) ∧
  (∀ typeError, reply = VoiceChat.not_ok_null typeError → fst out = inl typeError).
Proof.
  intros out. subst out.
  assert (VoiceChat.LIVEKIT_API_URL env ≠ []) as Hurl.
  { unfold VoiceChat.LIVEKIT_API_URL, or_else.
    destruct env as [[|c u]|]; simpl; discriminate. }
  split; [by destruct reply as [m|[[e|]|]|m|m|tok]|]. split; [|split; [|split]].
  - intros tok url H.
    destruct reply as [m|[[e|]|]|m|m|tok']; simpl in H; try discriminate H.
    injection H as <- <-. done.
  - intros message H.
    destruct reply as [m|[[e|]|]|m|m|tok']; simpl in H |- *; try discriminate H;
      injection H as <-; done.
  - intros body message -> H. simpl in H. injection H as <-.
    destruct body as [[[|c e]|]|]; simpl;
      (split; [discriminate|]); (split; [try done|]);
      (split; [intros e' [= <-] He'; done|]); intros [H|H]; try done.
  - by intros typeError ->.
Qed.

Lemma getToken_outcomes_witness :
  VoiceChat.getToken None (js "user-u1-17") (js "u1") (js "u1")
    (VoiceChat.not_ok (Some (Some (js "room limit reached")))) =
  (inl (js "room limit reached"),
   [VoiceChat.TokenRequest (js "user-u1-17") (js "u1") (js "u1"); VoiceChat.ConsoleError]) ∧
  fst (VoiceChat.getToken None (js "user-u1-17") (js "u1") (js "u1")
         (VoiceChat.ok_body (js "jwt"))) = inr (js "jwt", js "ws://localhost:7880").
Proof.
  destruct (getToken_outcomes None (js "user-u1-17") (js "u1") (js "u1")
              (VoiceChat.not_ok (Some (Some (js "room limit reached")))))
    as (_ & _ & H3 & _).
  split; [|reflexivity].
  destruct (H3 (js "room limit reached") eq_refl) as [_ H]. by rewrite <- H.
Defined.

(** X19: a failed connect leaves the user able to retry.  The connect
    asks for one token, for a room named after the user id and the
    current time, with the user id as participant; if that fails with a
    message, a client without a token shows the failure card with that
    message, the connecting flag is off and the attempt mark is cleared;
    a retry that gets a token then shows the room. *)
Theorem failed_connect_can_retry (env : option jsstring) (userId message tok : jsstring)
    (now now' : N) (reply : VoiceChat.TokenReply) (s : VoiceChat.State) :
  VoiceChat.thrown reply = Some message → message ≠ [] →
  VoiceChat.token s = [] → tok ≠ [] →
  let failed := VoiceChat.handleConnect env userId now reply s in
  let retried := VoiceChat.handleConnect env userId now' (VoiceChat.ok_body tok) (fst failed) in
  head (snd failed) =
    Some (VoiceChat.TokenRequest (App.generateRoomName userId now) userId userId) ∧
  VoiceChat.render (fst failed) = VoiceChat.ConnectionFailed message ∧
  VoiceChat.isConnecting (fst failed) = false ∧
  VoiceChat.hasAttemptedConnect (fst failed) = false ∧
  VoiceChat.render (fst retried) = VoiceChat.Room tok (VoiceChat.LIVEKIT_API_URL env).
Proof.
  intros Hthrown Hmsg Htok Htokne failed retried. subst failed retried.
  assert (VoiceChat.handleConnect env userId now reply s =
          ({| VoiceChat.token := VoiceChat.token s; VoiceChat.serverUrl := VoiceChat.serverUrl s;
              VoiceChat.isConnecting := false; VoiceChat.error := message;
              VoiceChat.hasAttemptedConnect := false;
              VoiceChat.devicesLoaded := VoiceChat.devicesLoaded s;
              VoiceChat.audioDevices := VoiceChat.audioDevices s |},
           [VoiceChat.TokenRequest (App.generateRoomName userId now) userId userId;
            VoiceChat.ConsoleError; VoiceChat.ConsoleError])) as ->.
  { unfold VoiceChat.handleConnect, VoiceChat.getToken.
    destruct reply as [m|body|m|m|tok']; simpl in Hthrown |- *;
      try discriminate Hthrown; injection Hthrown as Hm; by rewrite Hm. }
  simpl. split; [done|]. split.
  - unfold VoiceChat.render. simpl. rewrite Htok. simpl. by destruct message.
  - split; [done|]. split; [done|].
    unfold VoiceChat.render. simpl.
    assert (VoiceChat.LIVEKIT_API_URL env ≠ []) as Hurl.
    { unfold VoiceChat.LIVEKIT_API_URL, or_else.
      destruct env as [[|c u]|]; simpl; discriminate. }
    destruct tok; [done|]. simpl. by destruct (VoiceChat.LIVEKIT_API_URL env).
Qed.

Lemma failed_connect_can_retry_witness :
  let fresh := {| VoiceChat.token := []; VoiceChat.serverUrl := [];
                  VoiceChat.isConnecting := false; VoiceChat.error := [];
                  VoiceChat.hasAttemptedConnect := false;
                  VoiceChat.devicesLoaded := true; VoiceChat.audioDevices := 1 |} in
  let failed := VoiceChat.handleConnect None (js "u1") 17 (VoiceChat.not_ok None) fresh in
  VoiceChat.render (fst failed) = VoiceChat.ConnectionFailed (js "Failed to get LiveKit token") ∧
  VoiceChat.render
    (fst (VoiceChat.handleConnect None (js "u1") 18 (VoiceChat.ok_body (js "jwt")) (fst failed)))
  = VoiceChat.Room (js "jwt") (js "ws://localhost:7880").
Proof.
  intros fresh failed.
  destruct (failed_connect_can_retry None (js "u1") (js "Failed to get LiveKit token")
              (js "jwt") 17 18 (VoiceChat.not_ok None) fresh)
    as (_ & H2 & _ & _ & H5); try reflexivity; try discriminate.
  split; [exact H2 | exact H5].
Defined.

(** X20: a disconnect never reconnects by itself.  A successful connect
    leaves the attempt mark set and no error, and a disconnect keeps both
    as they are.  So in every state with the mark set (only a failed
    connect clears it) the auto-connect effect does nothing after a
    disconnect, whenever it runs and whatever the server would answer,
    and what is shown is the connecting card, without a retry button, if
    no error is set, and otherwise the failure card with the error that
    was set meanwhile (the microphone error of a failed device reload,
    for one). *)
Theorem disconnect_never_auto_reconnects (env : option jsstring) (userId : jsstring)
    (s : VoiceChat.State) :
  VoiceChat.hasAttemptedConnect s = true →
  let left := VoiceChat.handleDisconnect s in
  VoiceChat.hasAttemptedConnect left = true ∧
  VoiceChat.error left = VoiceChat.error s ∧
  VoiceChat.shouldAutoConnect left = false ∧
  (∀ now reply, VoiceChat.autoConnect env userId now reply left = (left, [])) ∧
  VoiceChat.render left =
    (if truthy (VoiceChat.error s) then VoiceChat.ConnectionFailed (VoiceChat.error s)
     else VoiceChat.Connecting) ∧
  (∀ now tok s0,
     let connected := fst (VoiceChat.handleConnect env userId now (VoiceChat.ok_body tok) s0) in
     VoiceChat.hasAttemptedConnect connected = true ∧ VoiceChat.error connected = [] ∧
     VoiceChat.render (VoiceChat.handleDisconnect connected) = VoiceChat.Connecting).
Proof.
  intros Hmark left. subst left.
  assert (VoiceChat.shouldAutoConnect (VoiceChat.handleDisconnect s) = false) as Hguard.
  { unfold VoiceChat.shouldAutoConnect. simpl. rewrite Hmark. by rewrite !andb_false_r. }
  split; [done|]. split; [done|]. split; [exact Hguard|]. split; [|split].
  - intros now reply. unfold VoiceChat.autoConnect. by rewrite Hguard.
  - done.
  - done.
Qed.

Lemma disconnect_never_auto_reconnects_witness :
  let in_call := {| VoiceChat.token := js "jwt"; VoiceChat.serverUrl := js "ws://localhost:7880";
                    VoiceChat.isConnecting := true;
                    VoiceChat.error := js "Failed to access microphone. Please grant permission.";
                    VoiceChat.hasAttemptedConnect := true;
                    VoiceChat.devicesLoaded := true; VoiceChat.audioDevices := 1 |} in
  VoiceChat.hasAttemptedConnect in_call = true ∧
  VoiceChat.render (VoiceChat.handleDisconnect in_call) =
    VoiceChat.ConnectionFailed (js "Failed to access microphone. Please grant permission.") ∧
  VoiceChat.autoConnect None (js "u1") 18 (VoiceChat.ok_body (js "jwt2"))
    (VoiceChat.handleDisconnect in_call) = (VoiceChat.handleDisconnect in_call, []).
Proof.
  intros in_call. split; [reflexivity|].
  destruct (disconnect_never_auto_reconnects None (js "u1") in_call eq_refl)
    as (_ & _ & _ & H4 & H5 & _).
  split; [exact H5 | apply H4].
Defined.
